(** * just-delete.py: a shallow embedding of the deletion engine

    The script removes paths like [rm], repairing permissions with one
    chmod per directory when a removal or a directory open is refused.
    Its functions are translated here one by one into a small monad
    carrying the operating system's state, the raised exception, and the
    sequence of system calls and log lines the run produced. *)

From Stdlib Require Import ZArith List String Ascii Bool Lia Arith.
Import ListNotations.

Set Implicit Arguments.

(** ** Byte strings and [os.path] helpers *)

(** Python [bytes]: a [string] is a list of 8-bit characters. *)
Definition bytes := string.
Bind Scope string_scope with bytes.

Definition is_sep (c : ascii) : bool := Ascii.eqb c "/"%char.

Fixpoint take_while (p : ascii -> bool) (l : list ascii) : list ascii :=
  match l with
  | [] => []
  | c :: r => if p c then c :: take_while p r else []
  end.

Fixpoint drop_while (p : ascii -> bool) (l : list ascii) : list ascii :=
  match l with
  | [] => []
  | c :: r => if p c then drop_while p r else l
  end.

(** [posixpath.split]: cut after the last separator; trailing separators
    are stripped from the head unless it consists of separators only. *)
Definition path_split (p : bytes) : bytes * bytes :=
  let r := rev (list_ascii_of_string p) in
  let tail_r := take_while (fun c => negb (is_sep c)) r in
  let head_r := drop_while (fun c => negb (is_sep c)) r in
  let head_r' := if forallb is_sep head_r then head_r
                 else drop_while is_sep head_r in
  (string_of_list_ascii (rev head_r'), string_of_list_ascii (rev tail_r)).

Definition starts_with_sep (b : bytes) : bool :=
  match b with
  | String c _ => is_sep c
  | EmptyString => false
  end.

Definition ends_with_sep (a : bytes) : bool :=
  match rev (list_ascii_of_string a) with
  | c :: _ => is_sep c
  | [] => false
  end.

(** [posixpath.join] with two arguments. *)
Definition path_join (a b : bytes) : bytes :=
  if starts_with_sep b then b
  else if (String.eqb a "" || ends_with_sep a)%bool then (a ++ b)%string
  else (a ++ "/" ++ b)%string.

(** ** [stat] constants *)

Definition S_IWUSR : Z := 128.         (* 0o200 *)
Definition S_IMODE (st_mode : Z) : Z := Z.land st_mode 4095.   (* 0o7777 *)
Definition S_IFMT (st_mode : Z) : Z := Z.land st_mode 61440.   (* 0o170000 *)
Definition S_IFDIR : Z := 16384.       (* 0o040000 *)
Definition S_IFREG : Z := 32768.       (* 0o100000 *)
Definition S_IFLNK : Z := 40960.       (* 0o120000 *)
Definition S_ISDIR (st_mode : Z) : bool := Z.eqb (S_IFMT st_mode) S_IFDIR.

(** ** Errors and exceptions *)

Inductive errno :=
| ENOENT | EACCES | EPERM | ENOTDIR | EISDIR | ENOTEMPTY
| EINVAL | ELOOP | EBADF | EBUSY | EIO.

(** Python maps [ENOENT] to [FileNotFoundError] and [EACCES], [EPERM] to
    [PermissionError]; every errno is an [OSError]. *)
Definition is_FileNotFoundError (e : errno) : bool :=
  match e with ENOENT => true | _ => false end.

Definition is_PermissionError (e : errno) : bool :=
  match e with EACCES | EPERM => true | _ => false end.

Inductive exn :=
| OSError (e : errno)
| AssertionError
| UnboundLocalError
| RecursionError
| SystemExit (code : Z).

(** ** System calls, their answers, and the run's trace *)

(** One entry produced by iterating [os.scandir]: its name and what
    [entry.is_dir(follow_symlinks=False)] gives, which may raise. *)
Record dirent := { d_name : bytes; d_is_dir : errno + bool }.

(** What iterating a directory yields: the entries, and the error that
    interrupts the iteration after them, if any. *)
Definition listing := (list dirent * option errno)%type.

Inductive syscall :=
| Realpath (path : bytes)                          (* os.path.realpath(path, strict=True) *)
| Open (path : bytes) (dir_fd : option Z)          (* os.open(path, O_RDONLY, dir_fd=...) *)
| Lstat (path : bytes) (dir_fd : Z)
| Chmod (path : bytes) (mode : Z) (dir_fd : Z)
| Fstat (fd : Z)
| Fchmod (fd : Z) (mode : Z)
| Rmdir (path : bytes) (dir_fd : Z)
| Unlink (path : bytes) (dir_fd : Z)
| Scandir (fd : Z)
| Close (fd : Z).

Inductive answer :=
| Failed (e : errno)
| Done
| GotFd (fd : Z)
| GotMode (st_mode : Z)
| GotPath (path : bytes)
| GotListing (l : listing).

(** A line written to standard error. *)
Inductive logline :=
| LogError (message : string) (path : bytes) (e : errno)
| LogPath (path : bytes).

Inductive event :=
| Sys (c : syscall) (a : answer)
| Log (l : logline).

Definition trace := list event.

(** The operating system as the script sees it: each operation of the
    [os] module answers from the current world and leaves a new world. *)
Record OS (W : Type) := {
  sys_realpath : bytes -> W -> (errno + bytes) * W;
  sys_open : bytes -> option Z -> W -> (errno + Z) * W;
  sys_lstat : bytes -> Z -> W -> (errno + Z) * W;
  sys_chmod : bytes -> Z -> Z -> W -> (errno + unit) * W;
  sys_fstat : Z -> W -> (errno + Z) * W;
  sys_fchmod : Z -> Z -> W -> (errno + unit) * W;
  sys_rmdir : bytes -> Z -> W -> (errno + unit) * W;
  sys_unlink : bytes -> Z -> W -> (errno + unit) * W;
  sys_scandir : Z -> W -> (errno + listing) * W;
  sys_close : Z -> W -> (errno + unit) * W
}.

(** ** The state of a run and its monad *)

(** The [attempted_chmod] field of every context object lives in a store
    of latches; a context holds the index of its own.  The other fields
    are never assigned after construction and are kept by value. *)
Definition ref := nat.

Record state (W : Type) := mkState { world : W; latches : list bool }.

Inductive outcome (A : Type) :=
| Returned (a : A)
| Raised (x : exn).
Arguments Raised {A} x.

Definition Eff (W A : Type) := state W -> outcome A * state W * trace.

Definition ret {W A} (a : A) : Eff W A := fun s => (Returned a, s, []).

Definition raise {W A} (x : exn) : Eff W A := fun s => (Raised x, s, []).

Definition bind {W A B} (m : Eff W A) (k : A -> Eff W B) : Eff W B :=
  fun s =>
    let '(o, s1, t1) := m s in
    match o with
    | Returned a => let '(o2, s2, t2) := k a s1 in (o2, s2, t1 ++ t2)
    | Raised x => (Raised x, s1, t1)
    end.

Notation "x <- m ;; k" := (bind m (fun x => k))
  (at level 61, m at next level, right associativity).
Notation "m ;; k" := (bind m (fun _ => k))
  (at level 61, right associativity).

(** [try: m  except OSError as e: h e]; other exceptions pass through. *)
Definition except_OSError {W A} (m : Eff W A) (h : errno -> Eff W A) : Eff W A :=
  fun s =>
    let '(o, s1, t1) := m s in
    match o with
    | Raised (OSError e) => let '(o2, s2, t2) := h e s1 in (o2, s2, t1 ++ t2)
    | _ => (o, s1, t1)
    end.

(** [try: m  finally: c]. *)
Definition finally {W A} (m : Eff W A) (c : Eff W unit) : Eff W A :=
  fun s =>
    let '(o, s1, t1) := m s in
    let '(oc, s2, t2) := c s1 in
    (match oc with Returned _ => o | Raised x => Raised x end, s2, t1 ++ t2).

(** [for _ in range(n): body], where the body either breaks with a value
    or falls to the next iteration; [orelse] runs when no iteration
    broke. *)
Fixpoint for_range {W A} (n : nat) (body : Eff W (option A)) (orelse : Eff W A)
  : Eff W A :=
  match n with
  | O => orelse
  | S k => r <- body;;
           match r with
           | Some a => ret a
           | None => for_range k body orelse
           end
  end.

Definition new_latch {W} (b : bool) : Eff W ref :=
  fun s => (Returned (List.length (latches s)),
            mkState (world s) (latches s ++ [b]), []).

Definition get_latch {W} (r : ref) : Eff W bool :=
  fun s => (Returned (nth r (latches s) false), s, []).

(** A latch that was never written reads [false]; writing one past the
    end of the store extends the store up to it. *)
Fixpoint store (r : ref) (b : bool) (l : list bool) : list bool :=
  match r, l with
  | O, [] => [b]
  | O, _ :: t => b :: t
  | S r', [] => false :: store r' b []
  | S r', x :: t => x :: store r' b t
  end.

Definition set_latch {W} (r : ref) (b : bool) : Eff W unit :=
  fun s => (Returned tt, mkState (world s) (store r b (latches s)), []).

(** [log] prints one line to stderr, which takes it: a stderr that
    refuses the write, where [print] raises, is outside the model. *)
Definition log {W} (l : logline) : Eff W unit :=
  fun s => (Returned tt, s, [Log l]).

(** Issue one operation: record it with its answer, raise on failure. *)
Definition perform {W T} (c : syscall) (inj : T -> answer)
    (op : W -> (errno + T) * W) : Eff W T :=
  fun s =>
    match op (world s) with
    | (inl e, w) => (Raised (OSError e), mkState w (latches s), [Sys c (Failed e)])
    | (inr v, w) => (Returned v, mkState w (latches s), [Sys c (inj v)])
    end.

(** ** The script *)

Record ParentContext := {
  pc_name : bytes;
  pc_fd : Z;
  pc_attempted_chmod : ref
}.

Record ChildContext := {
  cc_name : bytes;
  cc_is_dir : bool;
  cc_attempted_chmod : ref
}.

Record Args := {
  arg_force : bool;
  arg_recursive : bool;
  arg_verbose : bool;
  arg_path : list bytes
}.

Section Script.

Context {W : Type} (os : OS W).

Local Abbreviation Eff := (Eff W).

Definition os_realpath (path : bytes) : Eff bytes :=
  perform (Realpath path) GotPath (sys_realpath os path).
Definition os_open (path : bytes) (dir_fd : option Z) : Eff Z :=
  perform (Open path dir_fd) GotFd (sys_open os path dir_fd).
Definition os_lstat (path : bytes) (dir_fd : Z) : Eff Z :=
  perform (Lstat path dir_fd) GotMode (sys_lstat os path dir_fd).
Definition os_chmod (path : bytes) (mode : Z) (dir_fd : Z) : Eff unit :=
  perform (Chmod path mode dir_fd) (fun _ => Done) (sys_chmod os path mode dir_fd).
Definition os_fstat (fd : Z) : Eff Z :=
  perform (Fstat fd) GotMode (sys_fstat os fd).
Definition os_fchmod (fd : Z) (mode : Z) : Eff unit :=
  perform (Fchmod fd mode) (fun _ => Done) (sys_fchmod os fd mode).
Definition os_rmdir (path : bytes) (dir_fd : Z) : Eff unit :=
  perform (Rmdir path dir_fd) (fun _ => Done) (sys_rmdir os path dir_fd).
Definition os_unlink (path : bytes) (dir_fd : Z) : Eff unit :=
  perform (Unlink path dir_fd) (fun _ => Done) (sys_unlink os path dir_fd).
Definition os_scandir (fd : Z) : Eff listing :=
  perform (Scandir fd) GotListing (sys_scandir os fd).
Definition os_close (fd : Z) : Eff unit :=
  perform (Close fd) (fun _ => Done) (sys_close os fd).

(** [ParentContext(name, fd, attempted_chmod)] and
    [ChildContext(name, is_dir)]: a new object with its own latch. *)
Definition new_ParentContext (name : bytes) (fd : Z) (attempted_chmod : bool)
  : Eff ParentContext :=
  r <- new_latch attempted_chmod;;
  ret {| pc_name := name; pc_fd := fd; pc_attempted_chmod := r |}.

Definition new_ChildContext (name : bytes) (is_dir : bool) : Eff ChildContext :=
  r <- new_latch false;;
  ret {| cc_name := name; cc_is_dir := is_dir; cc_attempted_chmod := r |}.

(** [os.fsdecode] is one-to-one on byte strings; the decoded text is
    represented by the bytes themselves. *)
Definition printable_path (parent_name child_name : bytes) : bytes :=
  path_join parent_name child_name.

Definition log_error (message : string) (parent_name child_name : bytes)
    (exception : errno) : Eff unit :=
  log (LogError message (printable_path parent_name child_name) exception).

Definition close_quietly (fd : Z) : Eff unit :=
  except_OSError (os_close fd) (fun _ => ret tt).

(** One pass of the loop of [open_with_chmod]: [Some fd] is the [break]. *)
Definition open_attempt (parent : ParentContext) (child : ChildContext)
  : Eff (option Z) :=
  except_OSError
    (dir_fd <- os_open (cc_name child) (Some (pc_fd parent));;
     ret (Some dir_fd))
    (fun e =>
       if is_PermissionError e then
         attempted <- get_latch (cc_attempted_chmod child);;
         if (attempted : bool) then raise (OSError e)
         else
           set_latch (cc_attempted_chmod child) true;;
           except_OSError
             (child_stat <- os_lstat (cc_name child) (pc_fd parent);;
              let child_mode := Z.lor (S_IMODE child_stat) S_IWUSR in
              os_chmod (cc_name child) child_mode (pc_fd parent))
             (fun chmod_e =>
                log_error "Failed to make writable"
                          (pc_name parent) (cc_name child) chmod_e;;
                raise (OSError e));;
           ret None
       else raise (OSError e)).

Definition open_with_chmod (parent : ParentContext) (child : ChildContext)
  : Eff Z :=
  for_range 2 (open_attempt parent child) (raise UnboundLocalError).

Definition delete_single (parent : ParentContext) (child : ChildContext)
  : Eff unit :=
  if cc_is_dir child then os_rmdir (cc_name child) (pc_fd parent)
  else os_unlink (cc_name child) (pc_fd parent).

(** One pass of the loop of [delete_single_with_chmod]. *)
Definition delete_attempt (parent : ParentContext) (child : ChildContext)
    (force verbose : bool) : Eff (option unit) :=
  except_OSError
    (delete_single parent child;;
     (if verbose then log (LogPath (printable_path (pc_name parent) (cc_name child)))
      else ret tt);;
     ret (Some tt))
    (fun e =>
       if is_FileNotFoundError e then
         if force then ret (Some tt) else raise (OSError e)
       else if is_PermissionError e then
         attempted <- get_latch (pc_attempted_chmod parent);;
         if (attempted : bool) then raise (OSError e)
         else
           set_latch (pc_attempted_chmod parent) true;;
           except_OSError
             (parent_stat <- os_fstat (pc_fd parent);;
              let parent_mode := Z.lor (S_IMODE parent_stat) S_IWUSR in
              os_fchmod (pc_fd parent) parent_mode)
             (fun chmod_e =>
                log_error "Failed to make writable" (pc_name parent) "" chmod_e;;
                raise (OSError e));;
           ret None
       else raise (OSError e)).

Definition delete_single_with_chmod (parent : ParentContext)
    (child : ChildContext) (force verbose : bool) : Eff unit :=
  for_range 2 (delete_attempt parent child force verbose) (ret tt).

(** [entry.is_dir(follow_symlinks=False)] on a listed entry. *)
Definition entry_is_dir (entry : dirent) : Eff bool :=
  match d_is_dir entry with
  | inl e => raise (OSError e)
  | inr b => ret b
  end.

(** The body of the loop [for entry in dir] of [delete_path] for one
    entry, but for the update of [success]: the value is what the
    recursive call returned.  [recurse] is [delete_path] itself, one
    call deeper. *)
Definition scan_entry
    (recurse : ParentContext -> ChildContext -> bool -> bool -> bool -> Eff bool)
    (dir_name : bytes) (dir_fd : Z) (child : ChildContext)
    (force verbose : bool) (entry : dirent) : Eff bool :=
  seed <- get_latch (cc_attempted_chmod child);;
  dir_context <- new_ParentContext dir_name dir_fd seed;;
  is_dir <- entry_is_dir entry;;
  entry_child <- new_ChildContext (d_name entry) is_dir;;
  ok <- recurse dir_context entry_child force is_dir verbose;;
  mine <- get_latch (cc_attempted_chmod child);;
  theirs <- get_latch (pc_attempted_chmod dir_context);;
  set_latch (cc_attempted_chmod child) (mine || theirs);;
  ret ok.

(** The loop itself over what the iterator yields, [success] being the
    variable of that name: [success &= delete_path(...)] for each entry,
    then the error that ends the iteration, if any. *)
Fixpoint scan_entries
    (recurse : ParentContext -> ChildContext -> bool -> bool -> bool -> Eff bool)
    (dir_name : bytes) (dir_fd : Z) (child : ChildContext)
    (force verbose : bool) (entries : list dirent) (stop : option errno)
    (success : bool) : Eff bool :=
  match entries with
  | [] =>
      match stop with
      | Some e => raise (OSError e)
      | None => ret success
      end
  | entry :: rest =>
      ok <- scan_entry recurse dir_name dir_fd child force verbose entry;;
      scan_entries recurse dir_name dir_fd child force verbose rest stop
                   (success && ok)
  end.

(** [limit] is the interpreter's recursion limit, counted in nested
    calls of [delete_path]. *)
Fixpoint delete_path (limit : nat) (parent : ParentContext)
    (child : ChildContext) (force recursive verbose : bool) : Eff bool :=
  match limit with
  | O => raise RecursionError
  | S depth =>
      first <- except_OSError
                 (delete_single_with_chmod parent child force verbose;;
                  ret (Some true))
                 (fun e =>
                    if (negb recursive || negb (cc_is_dir child))%bool then
                      log_error "Failed to delete" (pc_name parent) (cc_name child) e;;
                      ret (Some false)
                    else ret None);;
      match first with
      | Some result => ret result
      | None =>
          opened <- except_OSError
                      (except_OSError
                         (dir_fd <- open_with_chmod parent child;;
                          ret (inl dir_fd))
                         (fun e =>
                            if is_FileNotFoundError e then
                              if force then ret (inr true) else raise (OSError e)
                            else raise (OSError e)))
                      (fun e =>
                         log_error "Failed to open" (pc_name parent) (cc_name child) e;;
                         ret (inr false));;
          match opened with
          | inr result => ret result
          | inl dir_fd =>
              listed <- finally
                          (except_OSError
                             (dir <- os_scandir dir_fd;;
                              let dir_name := path_join (pc_name parent) (cc_name child) in
                              success <- scan_entries (delete_path depth) dir_name dir_fd
                                           child force verbose (fst dir) (snd dir) true;;
                              ret (Some success))
                             (fun e =>
                                log_error "Failed to read" (pc_name parent) (cc_name child) e;;
                                ret None))
                          (close_quietly dir_fd);;
              match listed with
              | None => ret false
              | Some success =>
                  except_OSError
                    (delete_single_with_chmod parent child force verbose;;
                     ret success)
                    (fun e =>
                       log_error "Failed to delete" (pc_name parent) (cc_name child) e;;
                       ret false)
              end
          end
      end
  end.

(** The two nested handlers around path resolution in [main]: a missing
    path is skipped under [force]; any other failure is logged against
    the current value of [path] and clears [success].  [inl] is the
    [continue], carrying [success]. *)
Definition or_failed_to_find {A} (args : Args) (success : bool) (path : bytes)
    (m : Eff (bool + A)) : Eff (bool + A) :=
  except_OSError
    (except_OSError m
       (fun e =>
          if is_FileNotFoundError e then
            if arg_force args then ret (inl success) else raise (OSError e)
          else raise (OSError e)))
    (fun e => log_error "Failed to find" path "" e;; ret (inl false)).

(** The body of [for path in args.path]; the result is [success] as the
    iteration leaves it.  The first [try] is entered twice with the same
    handlers because [path] is rebound to its resolved form inside it. *)
Definition main_path (args : Args) (limit : nat) (path : bytes) (success : bool)
  : Eff bool :=
  resolved <- or_failed_to_find args success path
                (path' <- os_realpath path;; ret (inr path'));;
  match resolved with
  | inl success' => ret success'
  | inr path =>
      found <- or_failed_to_find args success path
                 (let parent_name := fst (path_split path) in
                  let child_name := snd (path_split path) in
                  (if String.eqb parent_name "" then raise AssertionError else ret tt);;
                  let child_name := if String.eqb child_name "" then "."%string else child_name in
                  parent_fd <- os_open parent_name None;;
                  ret (inr (parent_name, child_name, parent_fd)));;
      match found with
      | inl success' => ret success'
      | inr (parent_name, child_name, parent_fd) =>
          finally
            (classified <- except_OSError
                             (child_stat <- os_lstat child_name parent_fd;;
                              ret (Some (S_ISDIR child_stat)))
                             (fun e =>
                                log_error "Failed to stat" parent_name child_name e;;
                                ret None);;
             match classified with
             | None => ret false
             | Some child_is_dir =>
                 parent <- new_ParentContext parent_name parent_fd false;;
                 child <- new_ChildContext child_name child_is_dir;;
                 ok <- delete_path limit parent child (arg_force args)
                         (arg_recursive args) (arg_verbose args);;
                 ret (success && ok)%bool
             end)
            (close_quietly parent_fd)
      end
  end.

Fixpoint main_loop (args : Args) (limit : nat) (paths : list bytes)
    (success : bool) : Eff bool :=
  match paths with
  | [] => ret success
  | path :: rest =>
      success' <- main_path args limit path success;;
      main_loop args limit rest success'
  end.

(** [main] from the parsed arguments on: [args] is what [parse_args]
    returned. *)
Definition main (args : Args) (limit : nat) : Eff unit :=
  success <- main_loop args limit (arg_path args) true;;
  if (success : bool) then ret tt else raise (SystemExit 1).

(** [main] with its first line.  [parse_args] is [argparse] and is taken
    as given: it returns the arguments, or ends the script itself, with
    [SystemExit(2)] on a usage error and [SystemExit(0)] after
    [--help]. *)
Definition main_with_parse_args (parse_args : Eff Args) (limit : nat)
  : Eff unit :=
  args <- parse_args;;
  main args limit.

End Script.

(** ** A filesystem to run the script on

    One user owns every inode; files, directories and symbolic links
    with absolute targets; descriptors name inodes, so they stay valid
    when an entry is removed; the working directory is the root.
    Another process may remove entries at chosen moments. *)
Module Fs.

Definition ino := nat.

Inductive inode :=
| IFile (mode : Z)
| IDir (mode : Z) (entries : list (bytes * ino))
| ILink (target : bytes).

(** What another process does: remove an entry of a directory. *)
Inductive meddle := MRemove (dir : ino) (name : bytes).

(** [meddler] schedules each action just before the system call whose
    number, counted from 0 in [clock], it is paired with. *)
Record disk := {
  inodes : list (ino * inode);
  fds : list (Z * ino);
  clock : nat;
  meddler : list (nat * meddle)
}.

Definition root : ino := 0.

Fixpoint lookup_ino (i : ino) (tbl : list (ino * inode)) : option inode :=
  match tbl with
  | [] => None
  | (j, v) :: r => if Nat.eqb i j then Some v else lookup_ino i r
  end.

Fixpoint update_ino (i : ino) (v : inode) (tbl : list (ino * inode))
  : list (ino * inode) :=
  match tbl with
  | [] => []
  | (j, u) :: r => if Nat.eqb i j then (j, v) :: r else (j, u) :: update_ino i v r
  end.

Fixpoint lookup_name (n : bytes) (es : list (bytes * ino)) : option ino :=
  match es with
  | [] => None
  | (m, i) :: r => if String.eqb n m then Some i else lookup_name n r
  end.

Definition remove_name (n : bytes) (es : list (bytes * ino)) : list (bytes * ino) :=
  filter (fun e => negb (String.eqb n (fst e))) es.

Fixpoint lookup_fd (fd : Z) (t : list (Z * ino)) : option ino :=
  match t with
  | [] => None
  | (g, i) :: r => if Z.eqb fd g then Some i else lookup_fd fd r
  end.

(** The lowest descriptor from 3 up that is not in use. *)
Fixpoint lowest_free (fuel : nat) (fd : Z) (t : list (Z * ino)) : Z :=
  match fuel with
  | O => fd
  | S k => match lookup_fd fd t with
           | None => fd
           | Some _ => lowest_free k (fd + 1)%Z t
           end
  end.

Definition fresh_fd (t : list (Z * ino)) : Z := lowest_free (List.length t) 3%Z t.

Definition S_IRUSR : Z := 256.
Definition S_IXUSR : Z := 64.

Definition may (bit mode : Z) : bool := negb (Z.eqb (Z.land mode bit) 0).

Definition mode_of (v : inode) : Z :=
  match v with
  | IFile m => m
  | IDir m _ => m
  | ILink _ => 511
  end.

Definition st_mode_of (v : inode) : Z :=
  match v with
  | IFile m => Z.lor S_IFREG m
  | IDir m _ => Z.lor S_IFDIR m
  | ILink _ => Z.lor S_IFLNK 511
  end.

Definition set_mode (m : Z) (v : inode) : inode :=
  match v with
  | IFile _ => IFile m
  | IDir _ es => IDir m es
  | ILink t => ILink t
  end.

Definition apply_meddle (tbl : list (ino * inode)) (a : nat * meddle)
  : list (ino * inode) :=
  match snd a with
  | MRemove d n =>
      match lookup_ino d tbl with
      | Some (IDir m es) => update_ino d (IDir m (remove_name n es)) tbl
      | _ => tbl
      end
  end.

(** The start of every system call: the other process acts if it is its
    moment, and the clock advances. *)
Definition tick (w : disk) : disk :=
  let due := filter (fun a => Nat.eqb (fst a) (clock w)) (meddler w) in
  {| inodes := fold_left apply_meddle due (inodes w);
     fds := fds w;
     clock := S (clock w);
     meddler := meddler w |}.

Definition with_inodes (w : disk) (tbl : list (ino * inode)) : disk :=
  {| inodes := tbl; fds := fds w; clock := clock w; meddler := meddler w |}.

Definition with_fds (w : disk) (t : list (Z * ino)) : disk :=
  {| inodes := inodes w; fds := t; clock := clock w; meddler := meddler w |}.

Fixpoint split_sep (l cur : list ascii) : list bytes :=
  match l with
  | [] => [string_of_list_ascii (rev cur)]
  | c :: r => if is_sep c then string_of_list_ascii (rev cur) :: split_sep r []
              else split_sep r (c :: cur)
  end.

Definition components (p : bytes) : list bytes :=
  filter (fun c => negb (String.eqb c "")) (split_sep (list_ascii_of_string p) []).

Definition top (stack : list (bytes * ino)) : ino :=
  match stack with
  | [] => root
  | (_, i) :: _ => i
  end.

(** Walk [comps] from the directory on top of [stack] (the root when it
    is empty), following every symbolic link; the result is the stack
    of names and inodes of the canonical path, innermost first. *)
Fixpoint resolve (fuel : nat) (tbl : list (ino * inode))
    (stack : list (bytes * ino)) (comps : list bytes)
  : errno + list (bytes * ino) :=
  match fuel with
  | O => inl ELOOP
  | S k =>
      match comps with
      | [] => inr stack
      | c :: rest =>
          if String.eqb c "." then resolve k tbl stack rest
          else if String.eqb c ".." then resolve k tbl (tl stack) rest
          else
            match lookup_ino (top stack) tbl with
            | Some (IDir m es) =>
                if may S_IXUSR m then
                  match lookup_name c es with
                  | None => inl ENOENT
                  | Some i =>
                      match lookup_ino i tbl with
                      | Some (ILink target) =>
                          resolve k tbl [] (components target ++ rest)
                      | Some _ => resolve k tbl ((c, i) :: stack) rest
                      | None => inl ENOENT
                      end
                  end
                else inl EACCES
            | Some _ => inl ENOTDIR
            | None => inl ENOENT
            end
      end
  end.

Definition render (stack : list (bytes * ino)) : bytes :=
  String "/" (String.concat "/" (rev (map fst stack))).

(** The walk of a whole path from the working directory, the root. *)
Definition walk (tbl : list (ino * inode)) (p : bytes)
  : errno + list (bytes * ino) :=
  resolve 64 tbl [] (components p).

(** What a system call is given as a path: the empty path names
    nothing. *)
Definition resolve_path (tbl : list (ino * inode)) (p : bytes)
  : errno + list (bytes * ino) :=
  if String.eqb p "" then inl ENOENT else walk tbl p.

(** Look [name] up in the directory [d]; a symbolic link is followed
    when [follow] is set. *)
Definition lookup_at (tbl : list (ino * inode)) (d : ino) (name : bytes)
    (follow : bool) : errno + ino :=
  match lookup_ino d tbl with
  | Some (IDir m es) =>
      if may S_IXUSR m then
        if String.eqb name "." then inr d
        else
          match lookup_name name es with
          | None => inl ENOENT
          | Some i =>
              match lookup_ino i tbl with
              | Some (ILink target) =>
                  if follow then
                    match resolve_path tbl target with
                    | inl e => inl e
                    | inr st => inr (top st)
                    end
                  else inr i
              | Some _ => inr i
              | None => inl ENOENT
              end
          end
      else inl EACCES
  | Some _ => inl ENOTDIR
  | None => inl ENOENT
  end.

(** [os.path.realpath(p, strict=True)]: the path is taken from the
    working directory, so the empty path is the working directory
    itself and no error. *)
Definition fs_realpath (p : bytes) (w : disk) : (errno + bytes) * disk :=
  let w := tick w in
  match walk (inodes w) p with
  | inl e => (inl e, w)
  | inr st => (inr (render st), w)
  end.

Definition open_ino (i : ino) (w : disk) : (errno + Z) * disk :=
  match lookup_ino i (inodes w) with
  | Some v =>
      if may S_IRUSR (mode_of v) then
        let fd := fresh_fd (fds w) in
        (inr fd, with_fds w ((fd, i) :: fds w))
      else (inl EACCES, w)
  | None => (inl ENOENT, w)
  end.

Definition fs_open (p : bytes) (dir_fd : option Z) (w : disk)
  : (errno + Z) * disk :=
  let w := tick w in
  match dir_fd with
  | None =>
      match resolve_path (inodes w) p with
      | inl e => (inl e, w)
      | inr st => open_ino (top st) w
      end
  | Some d =>
      match lookup_fd d (fds w) with
      | None => (inl EBADF, w)
      | Some di =>
          match lookup_at (inodes w) di p true with
          | inl e => (inl e, w)
          | inr i => open_ino i w
          end
      end
  end.

Definition fs_lstat (p : bytes) (dir_fd : Z) (w : disk) : (errno + Z) * disk :=
  let w := tick w in
  match lookup_fd dir_fd (fds w) with
  | None => (inl EBADF, w)
  | Some di =>
      match lookup_at (inodes w) di p false with
      | inl e => (inl e, w)
      | inr i =>
          match lookup_ino i (inodes w) with
          | Some v => (inr (st_mode_of v), w)
          | None => (inl ENOENT, w)
          end
      end
  end.

Definition chmod_ino (i : ino) (mode : Z) (w : disk) : (errno + unit) * disk :=
  match lookup_ino i (inodes w) with
  | Some v => (inr tt, with_inodes w (update_ino i (set_mode mode v) (inodes w)))
  | None => (inl ENOENT, w)
  end.

Definition fs_chmod (p : bytes) (mode : Z) (dir_fd : Z) (w : disk)
  : (errno + unit) * disk :=
  let w := tick w in
  match lookup_fd dir_fd (fds w) with
  | None => (inl EBADF, w)
  | Some di =>
      match lookup_at (inodes w) di p true with
      | inl e => (inl e, w)
      | inr i => chmod_ino i mode w
      end
  end.

Definition fs_fstat (fd : Z) (w : disk) : (errno + Z) * disk :=
  let w := tick w in
  match lookup_fd fd (fds w) with
  | None => (inl EBADF, w)
  | Some i =>
      match lookup_ino i (inodes w) with
      | Some v => (inr (st_mode_of v), w)
      | None => (inl EBADF, w)
      end
  end.

Definition fs_fchmod (fd : Z) (mode : Z) (w : disk) : (errno + unit) * disk :=
  let w := tick w in
  match lookup_fd fd (fds w) with
  | None => (inl EBADF, w)
  | Some i => chmod_ino i mode w
  end.

(** Remove the entry [p] of the directory behind [dir_fd]; [want_dir]
    tells [rmdir] from [unlink]. *)
Definition remove_entry (want_dir : bool) (p : bytes) (dir_fd : Z) (w : disk)
  : (errno + unit) * disk :=
  let w := tick w in
  match lookup_fd dir_fd (fds w) with
  | None => (inl EBADF, w)
  | Some di =>
      match lookup_ino di (inodes w) with
      | Some (IDir m es) =>
          if negb (may S_IXUSR m) then (inl EACCES, w)
          else if String.eqb p "." then
            (inl (if want_dir then EINVAL else EISDIR), w)
          else
            match lookup_name p es with
            | None => (inl ENOENT, w)
            | Some i =>
                if negb (may S_IWUSR m) then (inl EACCES, w)
                else
                  let gone := with_inodes w
                                (update_ino di (IDir m (remove_name p es)) (inodes w)) in
                  match lookup_ino i (inodes w), want_dir with
                  | Some (IDir _ []), true => (inr tt, gone)
                  | Some (IDir _ (_ :: _)), true => (inl ENOTEMPTY, w)
                  | Some (IDir _ _), false => (inl EISDIR, w)
                  | Some _, true => (inl ENOTDIR, w)
                  | Some _, false => (inr tt, gone)
                  | None, _ => (inl ENOENT, w)
                  end
            end
      | Some _ => (inl ENOTDIR, w)
      | None => (inl ENOENT, w)
      end
  end.

Definition fs_scandir (fd : Z) (w : disk) : (errno + listing) * disk :=
  let w := tick w in
  match lookup_fd fd (fds w) with
  | None => (inl EBADF, w)
  | Some i =>
      match lookup_ino i (inodes w) with
      | Some (IDir _ es) =>
          (inr (map (fun e =>
                       {| d_name := fst e;
                          d_is_dir := inr match lookup_ino (snd e) (inodes w) with
                                          | Some (IDir _ _) => true
                                          | _ => false
                                          end |}) es,
                None), w)
      | Some _ => (inl ENOTDIR, w)
      | None => (inl EBADF, w)
      end
  end.

Definition fs_close (fd : Z) (w : disk) : (errno + unit) * disk :=
  let w := tick w in
  match lookup_fd fd (fds w) with
  | None => (inl EBADF, w)
  | Some _ => (inr tt, with_fds w (filter (fun e => negb (Z.eqb fd (fst e))) (fds w)))
  end.

Definition os : OS disk := {|
  sys_realpath := fs_realpath;
  sys_open := fs_open;
  sys_lstat := fs_lstat;
  sys_chmod := fs_chmod;
  sys_fstat := fs_fstat;
  sys_fchmod := fs_fchmod;
  sys_rmdir := remove_entry true;
  sys_unlink := remove_entry false;
  sys_scandir := fs_scandir;
  sys_close := fs_close
|}.

(** Whether [p] names something, and what. *)
Definition find (w : disk) (p : bytes) : option inode :=
  match resolve_path (inodes w) p with
  | inl _ => None
  | inr st => lookup_ino (top st) (inodes w)
  end.

Definition quiet (tbl : list (ino * inode)) : disk :=
  {| inodes := tbl; fds := []; clock := 0; meddler := [] |}.

Definition start (w : disk) : state disk := mkState w [].

End Fs.

(** ** Observing a run *)

Definition out {W A} (r : outcome A * state W * trace) : outcome A := fst (fst r).
Definition after {W A} (r : outcome A * state W * trace) : state W := snd (fst r).
Definition events {W A} (r : outcome A * state W * trace) : trace := snd r.

(** [wp m s Q]: the run of [m] from [s] ends in an outcome, a state and
    a trace that satisfy [Q]. *)
Definition wp {W A} (m : Eff W A) (s : state W)
    (Q : outcome A -> state W -> trace -> Prop) : Prop :=
  Q (out (m s)) (after (m s)) (events (m s)).

(** Directory handles along a trace: a successful [os.open] puts its
    descriptor on top of the handles held; [os.close] must name the one
    on top and takes it off. *)
Definition track1 (held : list Z) (ev : event) : option (list Z) :=
  match ev with
  | Sys (Open _ _) (GotFd fd) => Some (fd :: held)
  | Sys (Close fd) _ =>
      match held with
      | g :: rest => if Z.eqb fd g then Some rest else None
      | [] => None
      end
  | _ => Some held
  end.

Fixpoint track (held : list Z) (t : trace) : option (list Z) :=
  match t with
  | [] => Some held
  | ev :: r =>
      match track1 held ev with
      | Some h => track h r
      | None => None
      end
  end.

(** Every handle opened along [t] is closed once along [t], and nothing
    else is closed. *)
Definition balanced (t : trace) : Prop :=
  forall held, track held t = Some held.

(** [t] is balanced but for the handle [fd], opened and still held. *)
Definition acquires (fd : Z) (t : trace) : Prop :=
  forall held, track held t = Some (fd :: held).

(** ** The retry policy, as the specification words it

    Section 4.3 describes the two retries without a loop: one attempt,
    one repair guarded by the latch, one retry. *)

(** How one deletion attempt is settled: "a not found result is treated
    as success if the caller requested tolerant mode, otherwise it
    propagates"; a permission error is handed to [on_permission]; "on
    success, if verbose logging is requested, emit one line". *)
Definition settle_deletion {W} (os : OS W) (parent : ParentContext)
    (child : ChildContext) (force verbose : bool)
    (on_permission : errno -> Eff W unit) : Eff W unit :=
  except_OSError
    (delete_single os parent child;;
     if verbose then log (LogPath (printable_path (pc_name parent) (cc_name child)))
     else ret tt)
    (fun e =>
       if is_FileNotFoundError e then
         if force then ret tt else raise (OSError e)
       else if is_PermissionError e then on_permission e
       else raise (OSError e)).

(** "Read the parent directory's own permission bits (via a
    descriptor-based stat), OR in owner-writable, apply via a
    descriptor-based permission-change"; when that fails it is logged
    and the triggering error [e] propagates. *)
Definition repair_parent {W} (os : OS W) (parent : ParentContext) (e : errno)
  : Eff W unit :=
  except_OSError
    (bits <- os_fstat os (pc_fd parent);;
     os_fchmod os (pc_fd parent) (Z.lor (S_IMODE bits) S_IWUSR))
    (fun chmod_e =>
       log (LogError "Failed to make writable" (path_join (pc_name parent) "") chmod_e);;
       raise (OSError e)).

(** "A permission-error result, if the parent's repair latch is unset,
    triggers: set the latch, [repair], then retry the deletion exactly
    once.  If the latch was already set, or the retried deletion still
    fails, the failure propagates." *)
Definition deletion_policy {W} (os : OS W) (parent : ParentContext)
    (child : ChildContext) (force verbose : bool) : Eff W unit :=
  settle_deletion os parent child force verbose
    (fun e =>
       latch <- get_latch (pc_attempted_chmod parent);;
       if (latch : bool) then raise (OSError e)
       else
         set_latch (pc_attempted_chmod parent) true;;
         repair_parent os parent e;;
         settle_deletion os parent child force verbose
           (fun e' => raise (OSError e'))).

(** "Read the child's current permission bits via a link-safe stat, OR
    in the owner-writable bit, and apply the updated bits via a
    directory-relative permission-change call"; "if the
    permission-change call itself fails, report the original open
    failure", [e], the other being logged. *)
Definition repair_child {W} (os : OS W) (parent : ParentContext)
    (child : ChildContext) (e : errno) : Eff W unit :=
  except_OSError
    (bits <- os_lstat os (cc_name child) (pc_fd parent);;
     os_chmod os (cc_name child) (Z.lor (S_IMODE bits) S_IWUSR) (pc_fd parent))
    (fun chmod_e =>
       log (LogError "Failed to make writable"
                     (path_join (pc_name parent) (cc_name child)) chmod_e);;
       raise (OSError e)).

(** "Attempt to open the child by name relative to the parent handle.
    If this fails with a permission error and the child's repair latch
    is unset, set the latch, [repair]; then retry the open exactly once.
    If the retried open also fails, or the latch was already set, the
    failure propagates." *)
Definition open_policy {W} (os : OS W) (parent : ParentContext)
    (child : ChildContext) : Eff W Z :=
  except_OSError
    (os_open os (cc_name child) (Some (pc_fd parent)))
    (fun e =>
       if is_PermissionError e then
         latch <- get_latch (cc_attempted_chmod child);;
         if (latch : bool) then raise (OSError e)
         else
           set_latch (cc_attempted_chmod child) true;;
           repair_child os parent child e;;
           os_open os (cc_name child) (Some (pc_fd parent))
       else raise (OSError e)).

(** ** What a trace touches *)

(** How an operation without a result shows in the trace. *)
Definition answered (r : errno + unit) : answer :=
  match r with
  | inl e => Failed e
  | inr _ => Done
  end.

(** The event removes the directory [name] through the handle [fd], or
    reads or changes the mode of the directory behind [fd], or is a log
    line: nothing else is opened, listed, removed or changed. *)
Definition rmdir_or_repair (name : bytes) (fd : Z) (ev : event) : bool :=
  match ev with
  | Sys (Rmdir p d) _ => String.eqb p name && Z.eqb d fd
  | Sys (Fstat d) _ | Sys (Fchmod d _) _ => Z.eqb d fd
  | Sys _ _ => false
  | Log _ => true
  end.


(** ** The children of a directory *)

(** The entries of a listing handled by [body] one after the other,
    each to its own result and each from the state the one before left:
    [oks] are the values returned, in order, and the trace is theirs in
    order. *)
Inductive siblings {W} (body : dirent -> Eff W bool)
  : list dirent -> state W -> list bool -> state W -> trace -> Prop :=
| siblings_nil s : siblings body [] s [] s []
| siblings_cons entry rest s ok s1 t1 oks s2 t2 :
    body entry s = (Returned ok, s1, t1) ->
    siblings body rest s1 oks s2 t2 ->
    siblings body (entry :: rest) s (ok :: oks) s2 (t1 ++ t2).

(** Whether a deletion attempt ended without raising. *)
Definition removed (o : outcome unit) : bool :=
  match o with
  | Returned _ => true
  | Raised _ => false
  end.

(** The line [delete_path] logs when a deletion attempt raised. *)
Definition failure_log (parent : ParentContext) (child : ChildContext)
    (o : outcome unit) : trace :=
  match o with
  | Raised (OSError e) =>
      [Log (LogError "Failed to delete"
                     (path_join (pc_name parent) (cc_name child)) e)]
  | _ => []
  end.

(** ** Sample filesystems *)

Module Samples.

Import Fs.

(** [/d] holds a file, a directory with a file, and a link to [/e];
    [/l] is a link to [/d]; [/e] is an empty directory; [/ro] is a
    directory without write permission holding a file. *)
Definition sample : disk :=
  quiet [ (0, IDir 493 [("d", 1); ("l", 4); ("e", 5); ("ro", 6)]%string);
          (1, IDir 493 [("f", 2); ("sub", 3); ("k", 8)]%string);
          (2, IFile 420);
          (3, IDir 493 [("g", 9)]%string);
          (4, ILink "/d");
          (5, IDir 493 []);
          (6, IDir 320 [("x", 7)]%string);
          (7, IFile 292);
          (8, ILink "/e");
          (9, IFile 0) ].

(** [sample], where another process removes [/e] just before the third
    system call of the run. *)
Definition racing : disk :=
  {| inodes := inodes sample; fds := []; clock := 0;
     meddler := [(2, MRemove root "e")] |}.

(** [/t] holds a directory without any permission, itself holding a
    file, and a file. *)
Definition tangled : disk :=
  quiet [ (0, IDir 493 [("t", 1)]%string);
          (1, IDir 493 [("z", 2); ("f", 3)]%string);
          (2, IDir 0 [("h", 4)]%string);
          (3, IFile 420);
          (4, IFile 420) ].

(** A disk with the root open as descriptor 3, and the two context
    objects of a top-level entry [name] of the root. *)
Definition root_open (w : disk) : state disk :=
  mkState {| inodes := inodes w; fds := [(3%Z, root)]; clock := clock w;
             meddler := meddler w |}
          [false; false].

Definition root_handle : ParentContext :=
  {| pc_name := "/"; pc_fd := 3; pc_attempted_chmod := 0 |}.

Definition top_dir (name : bytes) : ChildContext :=
  {| cc_name := name; cc_is_dir := true; cc_attempted_chmod := 1 |}.

Definition flags (force recursive verbose : bool) (paths : list bytes) : Args :=
  {| arg_force := force; arg_recursive := recursive; arg_verbose := verbose;
     arg_path := paths |}.

End Samples.

(** ** Latches and repairs *)

(** Every latch that is set in [l] is set in [l']. *)
Definition latches_grow (l l' : list bool) : Prop :=
  forall r, nth r l false = true -> nth r l' false = true.

(** The two system calls of a repair through a descriptor: [fstat] when
    [kind] is set, [fchmod] when it is not. *)
Definition touches_mode (kind : bool) (fd : Z) (ev : event) : bool :=
  match ev with
  | Sys (Fstat d) _ => kind && Z.eqb d fd
  | Sys (Fchmod d _) _ => negb kind && Z.eqb d fd
  | _ => false
  end.

Definition is_fstat : Z -> event -> bool := touches_mode true.
Definition is_fchmod : Z -> event -> bool := touches_mode false.

Definition count (p : event -> bool) (t : trace) : nat :=
  List.length (filter p t).

(** No [os.open] along [t] hands out the descriptor [fd]: while [fd] is
    open, the operating system gives it to nobody else. *)
Definition returns_fd (fd : Z) (ev : event) : bool :=
  match ev with
  | Sys (Open _ _) (GotFd d) => Z.eqb d fd
  | _ => false
  end.

Definition never_opens (fd : Z) (t : trace) : bool :=
  forallb (fun ev => negb (returns_fd fd ev)) t.

(** The latch of a context in a state. *)
Definition latch {W} (r : ref) (s : state W) : bool := nth r (latches s) false.

(** ** What a run writes and raises *)

(** Some line of [t] reports a failure. *)
Definition is_error_line (ev : event) : bool :=
  match ev with
  | Log (LogError _ _ _) => true
  | _ => false
  end.

Definition has_error (t : trace) : bool := existsb is_error_line t.

(** The lines written by [verbose], and the removals that succeeded. *)
Definition is_path_line (ev : event) : bool :=
  match ev with
  | Log (LogPath _) => true
  | _ => false
  end.

Definition is_removal (ev : event) : bool :=
  match ev with
  | Sys (Unlink _ _) Done | Sys (Rmdir _ _) Done => true
  | _ => false
  end.

Definition is_syscall (ev : event) : bool :=
  match ev with
  | Sys _ _ => true
  | Log _ => false
  end.

(** The exceptions that can leave [delete_path], and [main]. *)
Definition escapes_delete_path {A} (o : outcome A) : Prop :=
  match o with
  | Returned _ | Raised RecursionError => True
  | Raised _ => False
  end.

Definition escapes_main {A} (o : outcome A) : Prop :=
  match o with
  | Returned _ | Raised RecursionError | Raised AssertionError => True
  | Raised (SystemExit code) => code = 1%Z
  | Raised _ => False
  end.

(** The path lines of [t] are as many as its removals when [verbose]
    is set, and none otherwise. *)
Definition lines_match (verbose : bool) (t : trace) : Prop :=
  count is_path_line t = if verbose then count is_removal t else 0.

(** ** More sample states *)

Module MoreSamples.

Import Fs Samples.

(** [sample] with the root open as 3 and [/ro] open as 4; [set]
    tells which of the two latches of the store is already set. *)
Definition ro_open (parent_latch child_latch : bool) : state disk :=
  mkState {| inodes := inodes sample; fds := [(4%Z, 6); (3%Z, root)];
             clock := 0; meddler := [] |}
          [parent_latch; child_latch].

Definition ro_handle : ParentContext :=
  {| pc_name := "/ro"; pc_fd := 4; pc_attempted_chmod := 0 |}.

Definition file_x : ChildContext :=
  {| cc_name := "x"; cc_is_dir := false; cc_attempted_chmod := 1 |}.

(** [tangled] with the root open as 3 and [/t] open as 4. *)
Definition t_open (parent_latch child_latch : bool) : state disk :=
  mkState {| inodes := inodes tangled; fds := [(4%Z, 1); (3%Z, root)];
             clock := 0; meddler := [] |}
          [parent_latch; child_latch].

Definition t_handle : ParentContext :=
  {| pc_name := "/t"; pc_fd := 4; pc_attempted_chmod := 0 |}.

Definition dir_z : ChildContext :=
  {| cc_name := "z"; cc_is_dir := true; cc_attempted_chmod := 1 |}.

End MoreSamples.

(** ** What the traversal asks of the operating system *)

(** A mode handed to [chmod] or [fchmod]: permission bits only, the
    owner's write bit among them. *)
Definition mode_ok (m : Z) : bool :=
  (0 <=? m)%Z && (m <? 4096)%Z && Z.testbit m 7.

Definition chmod_mode_ok (ev : event) : bool :=
  match ev with
  | Sys (Fchmod _ m) _ | Sys (Chmod _ m _) _ => mode_ok m
  | _ => true
  end.

(** The event is no resolution of a path string: neither [realpath]
    nor an [os.open] without [dir_fd]. *)
Definition is_relative (ev : event) : bool :=
  match ev with
  | Sys (Realpath _) _ | Sys (Open _ None) _ => false
  | _ => true
  end.

(** The paths handed to [realpath] along a trace, in order. *)
Definition resolved_paths (t : trace) : list bytes :=
  flat_map (fun ev => match ev with
                      | Sys (Realpath p) _ => [p]
                      | _ => []
                      end) t.

(** What [delete_path] emits: relative to a descriptor, with a sound
    mode. *)
Definition in_traversal (ev : event) : bool :=
  is_relative ev && chmod_mode_ok ev.

(** The operating system only resolves to absolute paths, as
    [os.path.realpath] does. *)
Definition absolute_realpath {W} (os : OS W) : Prop :=
  forall p w rp w', sys_realpath os p w = (inr rp, w') -> starts_with_sep rp = true.

(** Descriptors along a trace, with their use: as [track1], and every
    operation on a descriptor must name one that is held. *)
Definition holds (held : list Z) (fd : Z) : bool := existsb (Z.eqb fd) held.

Definition follow1 (held : list Z) (ev : event) : option (list Z) :=
  match ev with
  | Log _ | Sys (Realpath _) _ => Some held
  | Sys (Open _ None) (GotFd fd) => Some (fd :: held)
  | Sys (Open _ None) _ => Some held
  | Sys (Open _ (Some d)) a =>
      if holds held d then
        match a with
        | GotFd fd => Some (fd :: held)
        | _ => Some held
        end
      else None
  | Sys (Lstat _ d) _ | Sys (Chmod _ _ d) _ | Sys (Rmdir _ d) _
  | Sys (Unlink _ d) _ | Sys (Fstat d) _ | Sys (Fchmod d _) _
  | Sys (Scandir d) _ =>
      if holds held d then Some held else None
  | Sys (Close d) _ =>
      match held with
      | g :: rest => if Z.eqb d g then Some rest else None
      | [] => None
      end
  end.

Fixpoint follow (held : list Z) (t : trace) : option (list Z) :=
  match t with
  | [] => Some held
  | ev :: r =>
      match follow1 held ev with
      | Some h => follow h r
      | None => None
      end
  end.

(** [t] only uses [fd] and what it opens itself, and closes what it
    opens. *)
Definition uses (fd : Z) (t : trace) : Prop :=
  forall held, holds held fd = true -> follow held t = Some held.

(** The same, but for [new], opened last and left open. *)
Definition opens_under (fd new : Z) (t : trace) : Prop :=
  forall held, holds held fd = true -> follow held t = Some (new :: held).

(** ** Repairs of one handle *)

(** What a handle has left for repairs: one while its latch is clear,
    none once it is set. *)
Definition spent {W} (r : ref) (s : state W) : nat := Nat.b2n (latch r s).

(** The repairs of [fd] along [t] are paid for by the latch [r]: the
    latch was clear before the first and is set after it, so there is
    at most one. *)
Definition charged {W} (kind : bool) (fd : Z) (r : ref) (s s' : state W)
    (t : trace) : Prop :=
  spent r s + count (touches_mode kind fd) t <= spent r s'.

(** ** A crowded read-only directory *)

Module RepairSamples.

Import Fs Samples.

(** [/ro] is a directory without write permission holding two files. *)
Definition crowded : disk :=
  quiet [ (0, IDir 493 [("ro", 1)]%string);
          (1, IDir 320 [("x", 2); ("y", 3)]%string);
          (2, IFile 292);
          (3, IFile 292) ].

(** [crowded] with the root open as 3 and [/ro] open as 4, and the
    latches of the root's handle and of [ro], both clear. *)
Definition crowded_open : state disk :=
  mkState {| inodes := inodes crowded; fds := [(4%Z, 1); (3%Z, root)];
             clock := 0; meddler := [] |}
          [false; false].

Definition dir_ro : ChildContext :=
  {| cc_name := "ro"; cc_is_dir := true; cc_attempted_chmod := 1 |}.

Definition both_files : list dirent :=
  [ {| d_name := "x"; d_is_dir := inr false |};
    {| d_name := "y"; d_is_dir := inr false |} ].

End RepairSamples.

(** ** What a success stands for *)

(** The system call that removes [child] from [parent], answered
    [Done]. *)
Definition removal_of (parent : ParentContext) (child : ChildContext) : event :=
  Sys (if cc_is_dir child
       then Rmdir (cc_name child) (pc_fd parent)
       else Unlink (cc_name child) (pc_fd parent)) Done.

(** ** What the flags change *)

(** A trace without its lines of removed paths. *)
Definition hush (t : trace) : trace :=
  filter (fun ev => negb (is_path_line ev)) t.

Definition with_verbose (b : bool) (args : Args) : Args :=
  {| arg_force := arg_force args; arg_recursive := arg_recursive args;
     arg_verbose := b; arg_path := arg_path args |}.

Definition with_force (b : bool) (args : Args) : Args :=
  {| arg_force := b; arg_recursive := arg_recursive args;
     arg_verbose := arg_verbose args; arg_path := arg_path args |}.

(** No system call of the trace failed for a missing file. *)
Definition nothing_missing (t : trace) : bool :=
  forallb (fun ev => match ev with
                     | Sys _ (Failed e) => negb (is_FileNotFoundError e)
                     | _ => true
                     end) t.

(** [quiet] runs as [loud] does, but for the lines of removed paths. *)
Definition quieter {W A} (loud quiet : Eff W A) : Prop :=
  forall s, quiet s = (out (loud s), after (loud s), hush (events (loud s))).

(** [m'] runs as [m] does whenever nothing is missing along the run
    of [m]. *)
Definition same_unless_missing {W A} (m m' : Eff W A) : Prop :=
  forall s, nothing_missing (events (m s)) = true -> m' s = m s.

(*DEFS*)

(** ** Reasoning about runs *)

Section Runs.

Context {W : Type}.

Lemma run_eta {A} (r : outcome A * state W * trace) :
  r = (out r, after r, events r).
Proof. destruct r as [[o s] t]. reflexivity. Qed.

Lemma wp_conseq {A} (m : Eff W A) s (P Q : outcome A -> state W -> trace -> Prop) :
  wp m s P -> (forall o s' t, P o s' t -> Q o s' t) -> wp m s Q.
Proof. unfold wp. auto. Qed.

Lemma wp_run {A} (m : Eff W A) s o s' t :
  wp m s (fun o1 s1 t1 => (o1, s1, t1) = (o, s', t)) -> m s = (o, s', t).
Proof. unfold wp. intros H. rewrite (run_eta (m s)). exact H. Qed.

Lemma wp_known {A} (m : Eff W A) s o s1 t1
    (Q : outcome A -> state W -> trace -> Prop) :
  m s = (o, s1, t1) -> Q o s1 t1 -> wp m s Q.
Proof. unfold wp. intros ->. auto. Qed.

Lemma wp_ret {A} (a : A) s (Q : outcome A -> state W -> trace -> Prop) :
  Q (Returned a) s [] -> wp (ret a) s Q.
Proof. auto. Qed.

Lemma wp_raise {A} x s (Q : outcome A -> state W -> trace -> Prop) :
  Q (Raised x) s [] -> wp (raise x) s Q.
Proof. auto. Qed.

Lemma wp_bind {A B} (m : Eff W A) (k : A -> Eff W B) s
    (Q : outcome B -> state W -> trace -> Prop) :
  wp m s (fun o s1 t1 =>
            match o with
            | Returned a => wp (k a) s1 (fun o2 s2 t2 => Q o2 s2 (t1 ++ t2))
            | Raised x => Q (Raised x) s1 t1
            end) ->
  wp (bind m k) s Q.
Proof.
  unfold wp, bind, out, after, events.
  destruct (m s) as [[[a|x] s1] t1]; cbn; auto.
  destruct (k a s1) as [[o2 s2] t2]; cbn; auto.
Qed.

Lemma wp_except {A} (m : Eff W A) (h : errno -> Eff W A) s
    (Q : outcome A -> state W -> trace -> Prop) :
  wp m s (fun o s1 t1 =>
            match o with
            | Raised (OSError e) => wp (h e) s1 (fun o2 s2 t2 => Q o2 s2 (t1 ++ t2))
            | _ => Q o s1 t1
            end) ->
  wp (except_OSError m h) s Q.
Proof.
  unfold wp, except_OSError, out, after, events.
  destruct (m s) as [[[a|[e| | | |c]] s1] t1]; cbn; auto.
  destruct (h e s1) as [[o2 s2] t2]; cbn; auto.
Qed.

Lemma wp_finally {A} (m : Eff W A) (c : Eff W unit) s
    (Q : outcome A -> state W -> trace -> Prop) :
  wp m s (fun o s1 t1 =>
            wp c s1 (fun oc s2 t2 =>
                       Q (match oc with Returned _ => o | Raised x => Raised x end)
                         s2 (t1 ++ t2))) ->
  wp (finally m c) s Q.
Proof.
  unfold wp, finally, out, after, events.
  destruct (m s) as [[o s1] t1]; cbn.
  destruct (c s1) as [[oc s2] t2]; cbn; auto.
Qed.

Lemma wp_perform {T} c (inj : T -> answer) (op : W -> (errno + T) * W) s
    (Q : outcome T -> state W -> trace -> Prop) :
  (forall e w, op (world s) = (inl e, w) ->
     Q (Raised (OSError e)) (mkState w (latches s)) [Sys c (Failed e)]) ->
  (forall v w, op (world s) = (inr v, w) ->
     Q (Returned v) (mkState w (latches s)) [Sys c (inj v)]) ->
  wp (perform c inj op) s Q.
Proof.
  unfold wp, perform, out, after, events. intros He Hv.
  destruct (op (world s)) as [[e|v] w]; cbn; auto.
Qed.

Lemma wp_log l s (Q : outcome unit -> state W -> trace -> Prop) :
  Q (Returned tt) s [Log l] -> wp (log l) s Q.
Proof. auto. Qed.

Lemma wp_get_latch r s (Q : outcome bool -> state W -> trace -> Prop) :
  Q (Returned (nth r (latches s) false)) s [] -> wp (get_latch r) s Q.
Proof. auto. Qed.

Lemma wp_set_latch r b s (Q : outcome unit -> state W -> trace -> Prop) :
  Q (Returned tt) (mkState (world s) (store r b (latches s))) [] ->
  wp (set_latch r b) s Q.
Proof. auto. Qed.

Lemma wp_new_latch b s (Q : outcome ref -> state W -> trace -> Prop) :
  Q (Returned (List.length (latches s))) (mkState (world s) (latches s ++ [b])) [] ->
  wp (new_latch b) s Q.
Proof. auto. Qed.

Lemma wp_for_range_O {A} (body : Eff W (option A)) orelse s
    (Q : outcome A -> state W -> trace -> Prop) :
  wp orelse s Q -> wp (for_range 0 body orelse) s Q.
Proof. auto. Qed.

Lemma wp_for_range_S {A} n (body : Eff W (option A)) orelse s
    (Q : outcome A -> state W -> trace -> Prop) :
  wp (r <- body;;
      match r with
      | Some a => ret a
      | None => for_range n body orelse
      end) s Q ->
  wp (for_range (S n) body orelse) s Q.
Proof. auto. Qed.

End Runs.

(** One step of symbolic execution of a [wp] goal. *)
Ltac wp_step :=
  lazymatch goal with
  | |- wp (bind _ _) _ _ => apply wp_bind
  | |- wp (ret _) _ _ => apply wp_ret
  | |- wp (raise _) _ _ => apply wp_raise
  | |- wp (except_OSError _ _) _ _ => apply wp_except
  | |- wp (finally _ _) _ _ => apply wp_finally
  | |- wp (perform _ _ _) _ _ => apply wp_perform; intros ? ? ?
  | |- wp (log _) _ _ => apply wp_log
  | |- wp (get_latch _) _ _ => apply wp_get_latch
  | |- wp (set_latch _ _) _ _ => apply wp_set_latch
  | |- wp (new_latch _) _ _ => apply wp_new_latch
  | |- wp (for_range 0 _ _) _ _ => apply wp_for_range_O
  | |- wp (for_range (S _) _ _) _ _ => apply wp_for_range_S
  | |- wp (if ?b then _ else _) _ _ =>
      first [ match goal with H : b = _ |- _ => rewrite H end
            | destruct b eqn:? ]
  | |- wp (match ?x with _ => _ end) _ _ =>
      first [ match goal with H : x = _ |- _ => rewrite H end
            | destruct x eqn:? ]
  end;
  cbn beta iota;
  cbn [cc_name cc_is_dir cc_attempted_chmod pc_name pc_fd pc_attempted_chmod
       negb orb].

Ltac script_unfold :=
  unfold os_realpath, os_open, os_lstat, os_chmod, os_fstat, os_fchmod,
    os_rmdir, os_unlink, os_scandir, os_close, new_ParentContext,
    new_ChildContext, log_error, close_quietly, entry_is_dir.

Ltac wp_go := repeat (script_unfold; wp_step).

(** The same, with the answers of the operating system fixed by
    hypotheses. *)
Ltac wp_answered :=
  repeat (script_unfold;
          lazymatch goal with
          | |- wp (perform _ _ _) _ _ =>
              apply wp_perform; cbn [world latches]; intros ? ? ?;
              try match goal with
                  | Hq : ?op = _, Hk : ?op = _ |- _ =>
                      rewrite Hk in Hq;
                      first [ discriminate Hq | inversion Hq; subst; clear Hq ]
                  end
          | _ => wp_step
          end;
          cbn beta iota).

(** ** Handles are released in every run *)

Lemma track_app held t1 t2 :
  track held (t1 ++ t2) =
  match track held t1 with
  | Some h => track h t2
  | None => None
  end.
Proof.
  revert held. induction t1 as [|ev t1 IH]; intros held; cbn; [reflexivity|].
  destruct (track1 held ev); auto.
Qed.

Ltac track_solve :=
  cbn beta in *;
  try (intros ?held);
  repeat (rewrite ?track_app; cbn [track track1];
          repeat match goal with
                 | H : balanced _ |- _ => rewrite (H _)
                 | H : acquires _ _ |- _ => rewrite (H _)
                 end;
          rewrite ?Z.eqb_refl);
  try reflexivity.

Section Handles.

Context {W : Type} (os : OS W).

Lemma delete_single_with_chmod_balanced parent child force verbose s :
  wp (delete_single_with_chmod os parent child force verbose) s
     (fun _ _ t => balanced t).
Proof.
  unfold delete_single_with_chmod, delete_attempt, delete_single.
  wp_go; track_solve.
Qed.

Lemma open_with_chmod_acquires parent child s :
  wp (open_with_chmod os parent child) s
     (fun o _ t =>
        match o with
        | Returned fd => acquires fd t
        | Raised _ => balanced t
        end).
Proof.
  unfold open_with_chmod, open_attempt.
  wp_go; track_solve.
Qed.


Lemma scan_entries_balanced
    (recurse : ParentContext -> ChildContext -> bool -> bool -> bool -> Eff W bool)
    dir_name dir_fd child force verbose :
  (forall p c f r v s, wp (recurse p c f r v) s (fun _ _ t => balanced t)) ->
  forall entries stop success s,
    wp (scan_entries recurse dir_name dir_fd child force verbose
                     entries stop success) s
       (fun _ _ t => balanced t).
Proof.
  intros Hrec. induction entries as [|entry rest IH]; intros stop success s.
  - cbn [scan_entries]. wp_go; track_solve.
  - cbn [scan_entries]. unfold scan_entry. wp_go; try solve [track_solve].
    eapply wp_conseq; [apply Hrec|]. intros o s' t Ht.
    destruct o; [|track_solve].
    wp_go.
    eapply wp_conseq; [apply IH|]. intros o2 s2 t2 Ht2. cbn beta.
    track_solve.
Qed.

Lemma delete_path_balanced limit :
  forall parent child force recursive verbose s,
    wp (delete_path os limit parent child force recursive verbose) s
       (fun _ _ t => balanced t).
Proof.
  induction limit as [|depth IH]; intros; cbn [delete_path].
  - wp_go. track_solve.
  - do 3 wp_step.
    eapply wp_conseq; [apply delete_single_with_chmod_balanced|].
    intros o1 s1 t1 H1. cbn beta.
    destruct o1 as [[]|[e1| | | |c1]]; wp_go; try solve [track_solve].
    eapply wp_conseq; [apply open_with_chmod_acquires|].
    intros o2 s2 t2 H2. cbn beta.
    destruct o2 as [dir_fd|[e2| | | |c2]]; wp_go; try solve [track_solve].
    eapply wp_conseq; [apply scan_entries_balanced; apply IH|].
    intros o4 s4 t4 H4. cbn beta.
    destruct o4 as [success|[e4| | | |c4]]; wp_go; try solve [track_solve].
    all: eapply wp_conseq; [apply delete_single_with_chmod_balanced|];
      intros o6 s6 t6 H6; cbn beta;
      destruct o6 as [[]|[e6| | | |c6]]; wp_go; track_solve.
Qed.

Lemma main_path_balanced args limit path success s :
  wp (main_path os args limit path success) s (fun _ _ t => balanced t).
Proof.
  unfold main_path, or_failed_to_find.
  wp_go; try solve [track_solve].
  all: eapply wp_conseq; [apply delete_path_balanced|];
    intros o s' t Ht; cbn beta;
    destruct o as [ok|[e'| | | |c]]; wp_go; track_solve.
Qed.

Lemma main_loop_balanced args limit paths :
  forall success s,
    wp (main_loop os args limit paths success) s (fun _ _ t => balanced t).
Proof.
  induction paths as [|path rest IH]; intros; cbn [main_loop].
  - wp_go. track_solve.
  - wp_step.
    eapply wp_conseq; [apply main_path_balanced|].
    intros o s1 t1 H1. cbn beta.
    destruct o as [success'|x]; [|track_solve].
    eapply wp_conseq; [apply IH|].
    intros o2 s2 t2 H2. track_solve.
Qed.

(** C7: along the trace of any run of [main], and of any call of
    [delete_path], whatever the operating system answers and whether
    the call returns or raises, every successful [os.open] is followed
    by one [os.close] of its descriptor, which is the innermost one
    still open, and no other descriptor is closed. *)
Theorem handles_closed_exactly_once :
  (forall args limit s,
     track [] (events (main os args limit s)) = Some []) /\
  (forall limit parent child force recursive verbose s,
     balanced (events (delete_path os limit parent child force recursive
                                   verbose s))).
Proof.
  split.
  - intros. cut (balanced (events (main os args limit s))); [auto|].
    change (wp (main os args limit) s (fun _ _ t => balanced t)).
    unfold main. wp_step.
    eapply wp_conseq; [apply main_loop_balanced|].
    intros o s1 t1 H1. cbn beta.
    destruct o as [[]|x]; wp_go; track_solve.
  - intros. apply delete_path_balanced.
Qed.

End Handles.

(** ** The two retries follow the stated policy *)

Lemma nth_store r b l : nth r (store r b l) false = b.
Proof.
  revert l. induction r as [|r IH]; intros [|x l]; cbn; auto.
Qed.

(** Unfold the monad and split on every answer of the operating system,
    innermost first. *)
Ltac innermost_case :=
  match goal with
  | |- context [match ?x with _ => _ end] =>
      lazymatch x with
      | context [match _ with _ => _ end] => fail
      | _ => destruct x eqn:?
      end
  end.

Ltac run_cases :=
  unfold bind, except_OSError, ret, raise, perform, log, get_latch, set_latch;
  repeat (cbn -[nth store path_join Z.lor S_IMODE]; rewrite ?nth_store;
          innermost_case);
  cbn -[nth store path_join Z.lor S_IMODE]; rewrite ?nth_store;
  try reflexivity; try discriminate.

Section Policies.

Context {W : Type} (os : OS W).

(** C2: the loop of [delete_single_with_chmod] computes exactly the
    stated policy for deleting one entry: a not-found answer is success
    under [force] and is raised otherwise; a permission error with the
    parent's latch unset sets the latch, reads the parent's mode with
    [fstat] on its descriptor, sets the owner-writable bit with
    [fchmod], and attempts the deletion once more; with the latch set,
    or when the second attempt fails, the error is raised. *)
Theorem delete_single_with_chmod_policy parent child force verbose s :
  delete_single_with_chmod os parent child force verbose s =
  deletion_policy os parent child force verbose s.
Proof.
  unfold delete_single_with_chmod, deletion_policy, settle_deletion,
    repair_parent, delete_attempt, delete_single, for_range, log_error,
    printable_path, os_rmdir, os_unlink, os_fstat, os_fchmod.
  run_cases.
Qed.

(** C3: [open_with_chmod] computes exactly the stated policy for opening
    a directory: a permission error with the child's latch unset sets
    the latch, reads the child's mode with [lstat], sets the
    owner-writable bit with [chmod] relative to the parent descriptor,
    and opens once more; when [lstat] or [chmod] fails, that failure is
    logged and the error of the first open is the one raised. *)
Theorem open_with_chmod_policy parent child s :
  open_with_chmod os parent child s = open_policy os parent child s.
Proof.
  unfold open_with_chmod, open_policy, repair_child, open_attempt,
    for_range, log_error, printable_path, os_open, os_lstat, os_chmod.
  run_cases.
Qed.

End Policies.

(** ** Deleting without recursion *)

(** Equal runs up to the bracketing of the trace. *)
Ltac same_run :=
  cbn [app]; rewrite ?app_nil_r; repeat rewrite <- app_assoc; cbn [app];
  rewrite ?app_nil_r; reflexivity.

Section Direct.

Context {W : Type} (os : OS W).

Lemma delete_single_with_chmod_rmdir_only parent child force verbose s :
  cc_is_dir child = true ->
  wp (delete_single_with_chmod os parent child force verbose) s
     (fun _ _ t => forallb (rmdir_or_repair (cc_name child) (pc_fd parent)) t = true).
Proof.
  intros Hdir.
  unfold delete_single_with_chmod, delete_attempt, delete_single.
  rewrite Hdir.
  wp_go; cbn; rewrite ?String.eqb_refl, ?Z.eqb_refl; reflexivity.
Qed.

(** C8: when a directory cannot be removed directly, as a non-empty one
    cannot, and recursion is not requested, [delete_path] returns
    [False] after logging "Failed to delete" with the display path, and
    the only system calls it made are [rmdir] of that directory and
    [fstat] and [fchmod] of the parent handle: nothing inside the
    directory is opened, listed, removed or changed. *)
Theorem nonrecursive_failure_touches_nothing_inside
    depth parent child force verbose s e s1 t1 :
  cc_is_dir child = true ->
  delete_single_with_chmod os parent child force verbose s
    = (Raised (OSError e), s1, t1) ->
  delete_path os (S depth) parent child force false verbose s
    = (Returned false, s1,
       t1 ++ [Log (LogError "Failed to delete"
                            (path_join (pc_name parent) (cc_name child)) e)])
  /\ forallb (rmdir_or_repair (cc_name child) (pc_fd parent)) t1 = true.
Proof.
  intros Hdir Hrun. split.
  - apply wp_run. cbn [delete_path]. do 3 wp_step.
    eapply wp_known; [exact Hrun|]. cbn beta iota.
    wp_go. unfold printable_path. same_run.
  - pose proof (delete_single_with_chmod_rmdir_only parent child force verbose s Hdir) as H.
    unfold wp in H. rewrite Hrun in H. exact H.
Qed.

(** C9: when the resolved top-level path is a directory and the first
    [rmdir] on it succeeds, as it does on an empty directory in a
    writable parent, [main] leaves [success] as it was, whatever
    [args.recursive] is: the removal is the first thing tried after the
    classification, before [recursive] is looked at. *)
Theorem empty_directory_needs_no_recursive
    args limit path success s rp w1 fd w2 m w3 w4 r w5 :
  let parent_name := fst (path_split rp) in
  let child_name := if String.eqb (snd (path_split rp)) "" then "."%string
                    else snd (path_split rp) in
  sys_realpath os path (world s) = (inr rp, w1) ->
  String.eqb parent_name "" = false ->
  sys_open os parent_name None w1 = (inr fd, w2) ->
  sys_lstat os child_name fd w2 = (inr m, w3) ->
  S_ISDIR m = true ->
  sys_rmdir os child_name fd w3 = (inr tt, w4) ->
  sys_close os fd w4 = (r, w5) ->
  main_path os args (S limit) path success s =
  (Returned success, mkState w5 ((latches s ++ [false]) ++ [false]),
   [Sys (Realpath path) (GotPath rp);
    Sys (Open parent_name None) (GotFd fd);
    Sys (Lstat child_name fd) (GotMode m);
    Sys (Rmdir child_name fd) Done]
   ++ (if arg_verbose args
       then [Log (LogPath (path_join parent_name child_name))] else [])
   ++ [Sys (Close fd) (answered r)]).
Proof.
  intros parent_name child_name Hreal Hparent Hopen Hlstat Hdir Hrmdir Hclose.
  subst parent_name child_name.
  apply wp_run. unfold main_path, or_failed_to_find.
  wp_answered.
  cbn [delete_path]. unfold delete_single_with_chmod, delete_attempt, delete_single.
  wp_answered.
  all: rewrite andb_true_r; unfold printable_path; cbn [answered]; same_run.
Qed.

End Direct.

(** ** A batch of top-level paths *)

Section Batch.

Context {W : Type} (os : OS W).

Lemma wp_any {A} (m : Eff W A) s : wp m s (fun _ _ _ => True).
Proof. exact I. Qed.

(** [success] never goes back to [True]. *)
Lemma main_path_keeps_failure args limit path success s :
  wp (main_path os args limit path success) s
     (fun o _ _ => o = Returned true -> success = true).
Proof.
  unfold main_path, or_failed_to_find.
  wp_go; try discriminate; try (intros [= ->]; reflexivity).
  all: eapply wp_conseq; [apply wp_any|]; intros o s' t _; cbn beta;
    destruct o as [ok|[e'| | | |c]]; wp_go; try discriminate;
    intros [= Hok]; apply andb_true_iff in Hok; tauto.
Qed.

Lemma main_loop_keeps_failure args limit paths :
  forall s, out (main_loop os args limit paths false s) <> Returned true.
Proof.
  induction paths as [|path rest IH]; intros s; cbn [main_loop].
  - discriminate.
  - change (wp (success' <- main_path os args limit path false;;
                main_loop os args limit rest success') s
               (fun o _ _ => o <> Returned true)).
    wp_step.
    eapply wp_conseq; [apply main_path_keeps_failure|].
    intros o s1 t1 H1. cbn beta.
    destruct o as [[]|x]; [specialize (H1 eq_refl); discriminate| |discriminate].
    apply IH.
Qed.

(** C5, as amended: when [realpath] fails for a top-level path and
    [force] is unset, [main] logs "Failed to find" with the error that
    [realpath] raised, whichever it is, goes on with the remaining
    paths, now with [success] cleared, and so does not end with
    [success] set. *)
Theorem unresolved_path_fails_and_batch_goes_on
    args limit path rest success s e w1 :
  arg_force args = false ->
  sys_realpath os path (world s) = (inl e, w1) ->
  let r := main_loop os args limit rest false (mkState w1 (latches s)) in
  main_loop os args limit (path :: rest) success s =
  (out r, after r,
   [Sys (Realpath path) (Failed e);
    Log (LogError "Failed to find" (path_join path "") e)] ++ events r)
  /\ out r <> Returned true.
Proof.
  intros Hforce Hreal r. split; [|apply main_loop_keeps_failure].
  apply wp_run. cbn [main_loop]. unfold main_path, or_failed_to_find.
  wp_answered.
  all: unfold printable_path; eapply wp_known; [apply run_eta|]; fold r; same_run.
Qed.

End Batch.

(** ** Children first, then the directory *)

Section Traversal.

Context {W : Type} (os : OS W).

Lemma delete_single_with_chmod_raises_OSError parent child force verbose s :
  wp (delete_single_with_chmod os parent child force verbose) s
     (fun o _ _ => match o with
                   | Returned _ | Raised (OSError _) => True
                   | _ => False
                   end).
Proof.
  unfold delete_single_with_chmod, delete_attempt, delete_single.
  wp_go; exact I.
Qed.

Lemma scan_entries_all
    (recurse : ParentContext -> ChildContext -> bool -> bool -> bool -> Eff W bool)
    dir_name dir_fd child force verbose entries s oks s' t :
  siblings (scan_entry recurse dir_name dir_fd child force verbose)
           entries s oks s' t ->
  forall success,
    scan_entries recurse dir_name dir_fd child force verbose entries None
                 success s
    = (Returned (success && forallb id oks), s', t).
Proof.
  induction 1 as [s|entry rest s ok s1 t1 oks s2 t2 Hrun Hrest IH];
    intros success; cbn [scan_entries forallb].
  - rewrite andb_true_r. reflexivity.
  - apply wp_run. wp_step.
    eapply wp_known; [exact Hrun|]. cbn beta iota.
    eapply wp_known; [apply IH|].
    unfold id at 1. rewrite andb_assoc. reflexivity.
Qed.

(** C1: when the first removal of a directory fails, recursion is
    requested, the directory is opened and its listing is read to the
    end, every listed entry is handled, each to its own result, whatever
    the results of the others; only then is the handle closed and the
    removal of the directory attempted again; and [delete_path] returns
    the conjunction of all the children's results and of the success of
    that last removal. *)
Theorem children_then_directory
    depth parent child force verbose s e s1 t1 dir_fd s2 t2 entries w3
    oks s4 t4 r5 w5 o6 s6 t6 :
  cc_is_dir child = true ->
  delete_single_with_chmod os parent child force verbose s
    = (Raised (OSError e), s1, t1) ->
  open_with_chmod os parent child s1 = (Returned dir_fd, s2, t2) ->
  sys_scandir os dir_fd (world s2) = (inr (entries, None), w3) ->
  siblings (scan_entry (delete_path os depth)
                       (path_join (pc_name parent) (cc_name child))
                       dir_fd child force verbose)
           entries (mkState w3 (latches s2)) oks s4 t4 ->
  sys_close os dir_fd (world s4) = (r5, w5) ->
  delete_single_with_chmod os parent child force verbose
                           (mkState w5 (latches s4))
    = (o6, s6, t6) ->
  delete_path os (S depth) parent child force true verbose s =
  (Returned (forallb id oks && removed o6), s6,
   t1 ++ t2 ++ [Sys (Scandir dir_fd) (GotListing (entries, None))]
      ++ t4 ++ [Sys (Close dir_fd) (answered r5)]
      ++ t6 ++ failure_log parent child o6).
Proof.
  intros Hdir Hfirst Hopen Hscan Hkids Hclose Hlast.
  pose proof (delete_single_with_chmod_raises_OSError parent child force verbose
                (mkState w5 (latches s4))) as Hexn.
  unfold wp in Hexn. rewrite Hlast in Hexn. cbn [out fst] in Hexn.
  apply wp_run. cbn [delete_path]. do 3 wp_step.
  eapply wp_known; [exact Hfirst|]. cbn beta iota.
  rewrite Hdir. cbn [negb orb]. wp_step. wp_step. wp_step. wp_step. wp_step.
  eapply wp_known; [exact Hopen|]. cbn beta iota.
  wp_answered.
  eapply wp_known; [apply (scan_entries_all Hkids)|]. cbn beta iota.
  wp_answered.
  all: eapply wp_known; [exact Hlast|]; cbn beta iota;
    destruct o6 as [[]|[e6| | | |c]]; try contradiction; wp_go;
    unfold printable_path; cbn [removed failure_log answered andb];
    rewrite ?andb_true_r, ?andb_false_r; same_run.
Qed.

End Traversal.

(** ** Symbolic links *)

Section Links.

Context {W : Type} (os : OS W).





End Links.

(** ** The resolved target is what is deleted *)

Section Prefix.

Context {W : Type}.



End Prefix.

Section Resolved.

Context {W : Type} (os : OS W).









End Resolved.

(** ** Latches are only ever set *)

Lemma grow_refl l : latches_grow l l.
Proof. intros r H. exact H. Qed.

Lemma grow_trans l1 l2 l3 :
  latches_grow l1 l2 -> latches_grow l2 l3 -> latches_grow l1 l3.
Proof. unfold latches_grow. auto. Qed.

Lemma nth_store_other r r' b l :
  r <> r' -> nth r' (store r b l) false = nth r' l false.
Proof.
  revert r' l. induction r as [|r IH]; intros [|r'] [|x l] Hne; cbn;
    try congruence; auto.
  - destruct r'; reflexivity.
  - rewrite IH by congruence. destruct r'; reflexivity.
Qed.

Lemma grow_store_true l l' r :
  latches_grow l l' -> latches_grow l (store r true l').
Proof.
  intros H r' Hr'. destruct (Nat.eq_dec r r') as [<-|Hne].
  - apply nth_store.
  - rewrite nth_store_other by assumption. auto.
Qed.

Lemma grow_store_or l l' r b :
  latches_grow l l' -> latches_grow l (store r (nth r l' false || b) l').
Proof.
  intros H r' Hr'. destruct (Nat.eq_dec r r') as [<-|Hne].
  - rewrite nth_store. rewrite (H _ Hr'). reflexivity.
  - rewrite nth_store_other by assumption. auto.
Qed.

Lemma grow_snoc l l' b :
  latches_grow l l' -> latches_grow l (l' ++ [b]).
Proof.
  intros H r Hr. specialize (H r Hr).
  destruct (Nat.lt_ge_cases r (List.length l')) as [Hlt|Hge].
  - rewrite app_nth1 by assumption. exact H.
  - rewrite nth_overflow in H by assumption. discriminate.
Qed.

Ltac grow_solve :=
  cbn beta in *; cbn [latches world] in *;
  repeat first
    [ assumption
    | apply grow_refl
    | apply grow_store_true
    | apply grow_store_or
    | apply grow_snoc
    | match goal with
      | H : latches_grow _ ?l |- latches_grow _ ?l =>
          eapply grow_trans; [|exact H]
      end ].

Section Monotone.

Context {W : Type} (os : OS W).

Lemma delete_single_with_chmod_grows parent child force verbose s :
  wp (delete_single_with_chmod os parent child force verbose) s
     (fun _ s' _ => latches_grow (latches s) (latches s')).
Proof.
  unfold delete_single_with_chmod, delete_attempt, delete_single.
  wp_go; grow_solve.
Qed.

Lemma open_with_chmod_grows parent child s :
  wp (open_with_chmod os parent child) s
     (fun _ s' _ => latches_grow (latches s) (latches s')).
Proof.
  unfold open_with_chmod, open_attempt.
  wp_go; grow_solve.
Qed.

Lemma scan_entry_grows
    (recurse : ParentContext -> ChildContext -> bool -> bool -> bool -> Eff W bool)
    dir_name dir_fd child force verbose entry :
  (forall p c f r v s,
     wp (recurse p c f r v) s (fun _ s' _ => latches_grow (latches s) (latches s'))) ->
  forall s,
    wp (scan_entry recurse dir_name dir_fd child force verbose entry) s
       (fun _ s' _ => latches_grow (latches s) (latches s')).
Proof.
  intros Hrec s. unfold scan_entry. wp_go; try solve [grow_solve].
  eapply wp_conseq; [apply Hrec|]. intros o s' t Ht.
  destruct o; [|grow_solve].
  wp_go. grow_solve.
Qed.

Lemma scan_entries_grows
    (recurse : ParentContext -> ChildContext -> bool -> bool -> bool -> Eff W bool)
    dir_name dir_fd child force verbose :
  (forall p c f r v s,
     wp (recurse p c f r v) s (fun _ s' _ => latches_grow (latches s) (latches s'))) ->
  forall entries stop success s,
    wp (scan_entries recurse dir_name dir_fd child force verbose
                     entries stop success) s
       (fun _ s' _ => latches_grow (latches s) (latches s')).
Proof.
  intros Hrec. induction entries as [|entry rest IH]; intros stop success s;
    cbn [scan_entries].
  - wp_go; grow_solve.
  - wp_step.
    eapply wp_conseq; [apply scan_entry_grows; exact Hrec|].
    intros o s1 t1 H1. cbn beta.
    destruct o; [|grow_solve].
    eapply wp_conseq; [apply IH|]. intros o2 s2 t2 H2. grow_solve.
Qed.

Lemma delete_path_grows limit :
  forall parent child force recursive verbose s,
    wp (delete_path os limit parent child force recursive verbose) s
       (fun _ s' _ => latches_grow (latches s) (latches s')).
Proof.
  induction limit as [|depth IH]; intros; cbn [delete_path].
  - wp_go. grow_solve.
  - do 3 wp_step.
    eapply wp_conseq; [apply delete_single_with_chmod_grows|].
    intros o1 s1 t1 H1. cbn beta.
    destruct o1 as [[]|[e1| | | |c1]]; wp_go; try solve [grow_solve].
    eapply wp_conseq; [apply open_with_chmod_grows|].
    intros o2 s2 t2 H2. cbn beta.
    destruct o2 as [dir_fd|[e2| | | |c2]]; wp_go; try solve [grow_solve].
    eapply wp_conseq; [apply scan_entries_grows; apply IH|].
    intros o4 s4 t4 H4. cbn beta.
    destruct o4 as [success|[e4| | | |c4]]; wp_go; try solve [grow_solve].
    all: eapply wp_conseq; [apply delete_single_with_chmod_grows|];
      intros o6 s6 t6 H6; cbn beta;
      destruct o6 as [[]|[e6| | | |c6]]; wp_go; grow_solve.
Qed.

Lemma main_path_grows args limit path success s :
  wp (main_path os args limit path success) s
     (fun _ s' _ => latches_grow (latches s) (latches s')).
Proof.
  unfold main_path, or_failed_to_find.
  wp_go; try solve [grow_solve].
  all: eapply wp_conseq; [apply delete_path_grows|];
    intros o s' t Ht; cbn beta;
    destruct o as [ok|[e'| | | |c]]; wp_go; grow_solve.
Qed.

Lemma main_grows args limit s :
  latches_grow (latches s) (latches (after (main os args limit s))).
Proof.
  change (wp (main os args limit) s
             (fun _ s' _ => latches_grow (latches s) (latches s'))).
  unfold main. wp_step.
  assert (Hloop : forall paths success s0,
             wp (main_loop os args limit paths success) s0
                (fun _ s' _ => latches_grow (latches s0) (latches s'))).
  { induction paths as [|path rest IH]; intros; cbn [main_loop].
    - wp_go. grow_solve.
    - wp_step. eapply wp_conseq; [apply main_path_grows|].
      intros o s1 t1 H1. cbn beta. destruct o; [|grow_solve].
      eapply wp_conseq; [apply IH|]. intros o2 s2 t2 H2. grow_solve. }
  eapply wp_conseq; [apply Hloop|].
  intros o s1 t1 H1. cbn beta.
  destruct o as [[]|x]; wp_go; grow_solve.
Qed.

End Monotone.

(** ** Exceptions that leave the script *)

Section Escapes.

Context {W : Type} (os : OS W).

Lemma open_with_chmod_raises_OSError parent child s :
  wp (open_with_chmod os parent child) s
     (fun o _ _ => match o with
                   | Returned _ | Raised (OSError _) => True
                   | _ => False
                   end).
Proof.
  unfold open_with_chmod, open_attempt.
  repeat (script_unfold; wp_step; cbn [latches world]; rewrite ?nth_store;
          cbn beta iota);
    exact I.
Qed.

Lemma scan_entries_escapes
    (recurse : ParentContext -> ChildContext -> bool -> bool -> bool -> Eff W bool)
    dir_name dir_fd child force verbose :
  (forall p c f r v s, wp (recurse p c f r v) s (fun o _ _ => escapes_delete_path o)) ->
  forall entries stop success s,
    wp (scan_entries recurse dir_name dir_fd child force verbose
                     entries stop success) s
       (fun o _ _ => match o with
                     | Returned _ | Raised (OSError _) | Raised RecursionError => True
                     | _ => False
                     end).
Proof.
  intros Hrec. induction entries as [|entry rest IH]; intros stop success s;
    cbn [scan_entries].
  - wp_go; exact I.
  - unfold scan_entry. wp_go; try exact I.
    eapply wp_conseq; [apply Hrec|]. intros o s' t Ht.
    destruct o as [ok|[e| | | |c]]; try contradiction; try exact I.
    wp_go. apply IH.
Qed.

Lemma delete_path_escapes limit :
  forall parent child force recursive verbose s,
    wp (delete_path os limit parent child force recursive verbose) s
       (fun o _ _ => escapes_delete_path o).
Proof.
  induction limit as [|depth IH]; intros; cbn [delete_path].
  - wp_go. exact I.
  - do 3 wp_step.
    eapply wp_conseq; [apply delete_single_with_chmod_raises_OSError|].
    intros o1 s1 t1 H1. cbn beta.
    destruct o1 as [[]|[e1| | | |c1]]; try contradiction; wp_go; try exact I.
    eapply wp_conseq; [apply open_with_chmod_raises_OSError|].
    intros o2 s2 t2 H2. cbn beta.
    destruct o2 as [dir_fd|[e2| | | |c2]]; try contradiction; wp_go; try exact I.
    eapply wp_conseq; [apply scan_entries_escapes; apply IH|].
    intros o4 s4 t4 H4. cbn beta.
    destruct o4 as [success|[e4| | | |c4]]; try contradiction; wp_go; try exact I.
    all: eapply wp_conseq; [apply delete_single_with_chmod_raises_OSError|];
      intros o6 s6 t6 H6; cbn beta;
      destruct o6 as [[]|[e6| | | |c6]]; try contradiction; wp_go; exact I.
Qed.

Lemma main_path_escapes args limit path success s :
  wp (main_path os args limit path success) s
     (fun o _ _ => match o with
                   | Returned _ | Raised RecursionError | Raised AssertionError => True
                   | _ => False
                   end).
Proof.
  unfold main_path, or_failed_to_find.
  wp_go; try exact I.
  all: eapply wp_conseq; [apply delete_path_escapes|];
    intros o s' t Ht; cbn beta;
    destruct o as [ok|[e'| | | |c]]; try contradiction; wp_go; exact I.
Qed.

Lemma main_loop_escapes args limit paths :
  forall success s,
    wp (main_loop os args limit paths success) s
       (fun o _ _ => match o with
                     | Returned _ | Raised RecursionError | Raised AssertionError => True
                     | _ => False
                     end).
Proof.
  induction paths as [|path rest IH]; intros; cbn [main_loop].
  - wp_go. exact I.
  - wp_step. eapply wp_conseq; [apply main_path_escapes|].
    intros o s1 t1 H1. cbn beta.
    destruct o as [ok|[e'| | | |c]]; try contradiction; try exact I.
    apply IH.
Qed.

(** As long as the lines of the log can be written: no [OSError] leaves
    [delete_path], it returns or the recursion limit is hit; the
    descriptor returned by [open_with_chmod] is always bound; from the
    parsed arguments on, [main] ends normally, or with exit status 1, or
    on its assertion, or on the recursion limit; and [main] as a whole
    ends the way [parse_args] ended, or in one of these ways. *)
Theorem only_these_exceptions_escape :
  (forall limit parent child force recursive verbose s,
     escapes_delete_path
       (out (delete_path os limit parent child force recursive verbose s)))
  /\ (forall parent child s,
        out (open_with_chmod os parent child s) <> Raised UnboundLocalError)
  /\ (forall args limit s, escapes_main (out (main os args limit s)))
  /\ (forall parse_args limit s,
        (exists x, out (parse_args s) = Raised x
                   /\ out (main_with_parse_args os parse_args limit s) = Raised x)
        \/ escapes_main (out (main_with_parse_args os parse_args limit s))).
Proof.
  assert (Hmain : forall args limit s, escapes_main (out (main os args limit s))).
  { intros.
    change (wp (main os args limit) s (fun o _ _ => escapes_main o)).
    unfold main. wp_step.
    eapply wp_conseq; [apply main_loop_escapes|].
    intros o s1 t1 H1. cbn beta.
    destruct o as [[]|[e'| | | |c]]; try contradiction; wp_go;
      cbn; auto. }
  split; [|split; [|split]].
  - intros. apply delete_path_escapes.
  - intros parent child s H.
    pose proof (open_with_chmod_raises_OSError parent child s) as P.
    unfold wp in P. rewrite H in P. exact P.
  - exact Hmain.
  - intros parse_args limit s. unfold main_with_parse_args, bind.
    destruct (parse_args s) as [[[args|x] s1] t1]; cbn [out fst].
    + right. specialize (Hmain args limit s1).
      destruct (main os args limit s1) as [[o2 s2] t2]. exact Hmain.
    + left. exists x. split; reflexivity.
Qed.

End Escapes.

(** ** Failures are reported, removals are listed *)

Lemma has_error_app t1 t2 :
  has_error (t1 ++ t2) = (has_error t1 || has_error t2)%bool.
Proof. apply existsb_app. Qed.

Lemma count_app p t1 t2 : count p (t1 ++ t2) = count p t1 + count p t2.
Proof. unfold count. rewrite filter_app, length_app. reflexivity. Qed.

(** A goal on [has_error] of a trace put together from traces whose
    own [has_error] is in the context. *)
Ltac error_solve :=
  cbn beta in *;
  try (intros ?Hout);
  try discriminate;
  rewrite ?has_error_app; cbn [has_error existsb is_error_line orb];
  repeat match goal with
         | H : _ -> has_error ?t = true |- context [has_error ?t] =>
             rewrite H by (try reflexivity; try assumption; congruence)
         | H : has_error ?t = true |- context [has_error ?t] => rewrite H
         end;
  rewrite ?orb_true_r; cbn [orb];
  try reflexivity.

Section Reports.

Context {W : Type} (os : OS W).

Lemma wp_both {A} (m : Eff W A) s (P Q : outcome A -> state W -> trace -> Prop) :
  wp m s P -> wp m s Q -> wp m s (fun o s' t => P o s' t /\ Q o s' t).
Proof. unfold wp. auto. Qed.

Lemma scan_entries_reports
    (recurse : ParentContext -> ChildContext -> bool -> bool -> bool -> Eff W bool)
    dir_name dir_fd child force verbose :
  (forall p c f r v s,
     wp (recurse p c f r v) s
        (fun o _ t => o = Returned false -> has_error t = true)) ->
  forall entries stop success s,
    wp (scan_entries recurse dir_name dir_fd child force verbose
                     entries stop success) s
       (fun o _ t => o = Returned false -> success = true -> has_error t = true).
Proof.
  intros Hrec. induction entries as [|entry rest IH]; intros stop success s;
    cbn [scan_entries].
  - wp_go; intros [= ->]; discriminate.
  - unfold scan_entry. wp_go; try discriminate.
    eapply wp_conseq; [apply Hrec|]. intros o s' t Ht.
    destruct o as [ok|x]; [|discriminate].
    wp_go.
    eapply wp_conseq; [apply IH|]. intros o2 s2 t2 Ht2. cbn beta.
    intros Hout Hsucc. subst success. cbn [andb] in Ht2.
    destruct ok.
    + rewrite !has_error_app. rewrite (Ht2 Hout eq_refl).
      rewrite ?orb_true_r. reflexivity.
    + rewrite !has_error_app. rewrite (Ht eq_refl).
      rewrite ?orb_true_r. reflexivity.
Qed.

Lemma delete_path_reports limit :
  forall parent child force recursive verbose s,
    wp (delete_path os limit parent child force recursive verbose) s
       (fun o _ t => o = Returned false -> has_error t = true).
Proof.
  induction limit as [|depth IH]; intros; cbn [delete_path].
  - wp_go. discriminate.
  - do 3 wp_step.
    eapply wp_conseq; [apply wp_any|].
    intros o1 s1 t1 _. cbn beta.
    destruct o1 as [[]|[e1| | | |c1]]; wp_go; try solve [error_solve].
    eapply wp_conseq; [apply wp_any|].
    intros o2 s2 t2 _. cbn beta.
    destruct o2 as [dir_fd|[e2| | | |c2]]; wp_go; try solve [error_solve].
    eapply wp_conseq; [apply scan_entries_reports; apply IH|].
    intros o4 s4 t4 H4. cbn beta.
    destruct o4 as [success|[e4| | | |c4]]; wp_go; try solve [error_solve].
    all: eapply wp_conseq; [apply wp_any|];
      intros o6 s6 t6 _; cbn beta;
      destruct o6 as [[]|[e6| | | |c6]]; wp_go; try solve [error_solve].
    all: intros [= ->]; rewrite !has_error_app; rewrite (H4 eq_refl eq_refl);
      rewrite ?orb_true_r; reflexivity.
Qed.

Lemma main_path_reports args limit path success s :
  wp (main_path os args limit path success) s
     (fun o _ t => o = Returned false -> success = true -> has_error t = true).
Proof.
  unfold main_path, or_failed_to_find.
  wp_go; try solve [error_solve].
  all: try (intros [= ->]; discriminate).
  all: eapply wp_conseq; [apply delete_path_reports|];
    intros o s' t Ht; cbn beta;
    destruct o as [ok|[e'| | | |c]]; wp_go; try solve [error_solve].
  all: intros [= Hok] ->; cbn [andb] in Hok; subst ok;
    rewrite !has_error_app; rewrite (Ht eq_refl); rewrite ?orb_true_r;
    reflexivity.
Qed.

Lemma main_loop_reports args limit paths :
  forall success s,
    wp (main_loop os args limit paths success) s
       (fun o _ t => o = Returned false -> success = true -> has_error t = true).
Proof.
  induction paths as [|path rest IH]; intros; cbn [main_loop].
  - wp_go. intros [= ->]; discriminate.
  - wp_step. eapply wp_conseq; [apply main_path_reports|].
    intros o s1 t1 H1. cbn beta.
    destruct o as [success'|x]; [|discriminate].
    eapply wp_conseq; [apply IH|]. intros o2 s2 t2 H2. cbn beta.
    intros Hout Hsucc.
    rewrite has_error_app. destruct success'.
    + rewrite (H2 Hout eq_refl). apply orb_true_r.
    + rewrite (H1 eq_refl Hsucc). reflexivity.
Qed.

(** Whenever [delete_path] returns [False], and whenever [main] exits
    with status 1, some "Failed to ..." line was written: no failure is
    silent. *)
Theorem every_failure_is_logged :
  (forall limit parent child force recursive verbose s,
     out (delete_path os limit parent child force recursive verbose s)
     = Returned false ->
     has_error (events (delete_path os limit parent child force recursive
                                    verbose s)) = true)
  /\ (forall args limit s,
        out (main os args limit s) = Raised (SystemExit 1) ->
        has_error (events (main os args limit s)) = true).
Proof.
  split.
  - intros. apply delete_path_reports. assumption.
  - intros args limit s.
    change (wp (main os args limit) s
               (fun o _ t => o = Raised (SystemExit 1) -> has_error t = true)).
    unfold main. wp_step.
    eapply wp_conseq;
      [apply wp_both; [apply main_loop_reports|apply main_loop_escapes]|].
    intros o s1 t1 [H1 E]. cbn beta.
    destruct o as [[]|x]; wp_go; try discriminate.
    + intros _. rewrite has_error_app, (H1 eq_refl eq_refl). reflexivity.
    + intros [= ->]. contradiction.
Qed.

End Reports.

(** ** One line per removal *)

Section Lines.

Context {W : Type} (os : OS W).

Lemma lines_match_app verbose t1 t2 :
  lines_match verbose t1 -> lines_match verbose t2 ->
  lines_match verbose (t1 ++ t2).
Proof.
  unfold lines_match. intros H1 H2. rewrite !count_app, H1, H2.
  destruct verbose; reflexivity.
Qed.

Lemma lines_match_quiet verbose t :
  count is_path_line t = 0 -> count is_removal t = 0 -> lines_match verbose t.
Proof. unfold lines_match. intros -> ->. destruct verbose; reflexivity. Qed.

Ltac lines_solve :=
  cbn beta in *;
  repeat first
    [ assumption
    | apply lines_match_app
    | apply lines_match_quiet; reflexivity
    | match goal with
      | |- lines_match _ (_ :: _ :: _) =>
          apply (lines_match_app _ [_] (_ :: _))
      end
    | reflexivity ].

Lemma delete_single_with_chmod_lines parent child force verbose s :
  wp (delete_single_with_chmod os parent child force verbose) s
     (fun _ _ t => lines_match verbose t).
Proof.
  unfold delete_single_with_chmod, delete_attempt, delete_single.
  wp_go; unfold lines_match; cbn; try reflexivity;
    repeat match goal with v : unit |- _ => destruct v end;
    repeat match goal with |- context [if ?b then _ else _] => destruct b end;
    reflexivity.
Qed.

Lemma open_with_chmod_lines parent child verbose s :
  wp (open_with_chmod os parent child) s (fun _ _ t => lines_match verbose t).
Proof.
  unfold open_with_chmod, open_attempt.
  wp_go; unfold lines_match; cbn; destruct verbose; reflexivity.
Qed.

Lemma scan_entries_lines
    (recurse : ParentContext -> ChildContext -> bool -> bool -> bool -> Eff W bool)
    dir_name dir_fd child force verbose :
  (forall p c f r s, wp (recurse p c f r verbose) s (fun _ _ t => lines_match verbose t)) ->
  forall entries stop success s,
    wp (scan_entries recurse dir_name dir_fd child force verbose
                     entries stop success) s
       (fun _ _ t => lines_match verbose t).
Proof.
  intros Hrec. induction entries as [|entry rest IH]; intros stop success s;
    cbn [scan_entries].
  - wp_go; lines_solve.
  - unfold scan_entry. wp_go; try solve [lines_solve].
    eapply wp_conseq; [apply Hrec|]. intros o s' t Ht.
    destruct o as [ok|x]; [|lines_solve].
    wp_go.
    eapply wp_conseq; [apply IH|]. intros o2 s2 t2 Ht2. lines_solve.
Qed.

Lemma delete_path_lines limit :
  forall parent child force recursive verbose s,
    wp (delete_path os limit parent child force recursive verbose) s
       (fun _ _ t => lines_match verbose t).
Proof.
  induction limit as [|depth IH]; intros; cbn [delete_path].
  - wp_go. lines_solve.
  - do 3 wp_step.
    eapply wp_conseq; [apply delete_single_with_chmod_lines|].
    intros o1 s1 t1 H1. cbn beta.
    destruct o1 as [[]|[e1| | | |c1]]; wp_go; try solve [lines_solve].
    eapply wp_conseq; [apply (open_with_chmod_lines _ _ verbose)|].
    intros o2 s2 t2 H2. cbn beta.
    destruct o2 as [dir_fd|[e2| | | |c2]]; wp_go; try solve [lines_solve].
    eapply wp_conseq; [apply scan_entries_lines; intros; apply IH|].
    intros o4 s4 t4 H4. cbn beta.
    destruct o4 as [success|[e4| | | |c4]]; wp_go; try solve [lines_solve].
    all: eapply wp_conseq; [apply delete_single_with_chmod_lines|];
      intros o6 s6 t6 H6; cbn beta;
      destruct o6 as [[]|[e6| | | |c6]]; wp_go; lines_solve.
Qed.

Lemma main_path_lines args limit path success s :
  wp (main_path os args limit path success) s
     (fun _ _ t => lines_match (arg_verbose args) t).
Proof.
  unfold main_path, or_failed_to_find.
  wp_go; try solve [lines_solve].
  all: eapply wp_conseq; [apply delete_path_lines|];
    intros o s' t Ht; cbn beta;
    destruct o as [ok|[e'| | | |c]]; wp_go; lines_solve.
Qed.

(** With [verbose], a run of [main] writes as many path lines as its
    [unlink] and [rmdir] calls succeeded; without it, none.  The same
    holds of every call of [delete_path]. *)
Theorem one_line_per_removal :
  (forall args limit s,
     count is_path_line (events (main os args limit s))
     = if arg_verbose args
       then count is_removal (events (main os args limit s))
       else 0)
  /\ (forall limit parent child force recursive verbose s,
        count is_path_line
              (events (delete_path os limit parent child force recursive
                                   verbose s))
        = if verbose
          then count is_removal
                     (events (delete_path os limit parent child force
                                          recursive verbose s))
          else 0).
Proof.
  split; [|intros; apply delete_path_lines].
  intros args limit s.
  change (wp (main os args limit) s
             (fun _ _ t => lines_match (arg_verbose args) t)).
  unfold main. wp_step.
  assert (Hloop : forall paths success s0,
             wp (main_loop os args limit paths success) s0
                (fun _ _ t => lines_match (arg_verbose args) t)).
  { induction paths as [|path rest IH]; intros; cbn [main_loop].
    - wp_go. lines_solve.
    - wp_step. eapply wp_conseq; [apply main_path_lines|].
      intros o s1 t1 H1. cbn beta. destruct o; [|lines_solve].
      eapply wp_conseq; [apply IH|]. intros o2 s2 t2 H2. lines_solve. }
  eapply wp_conseq; [apply Hloop|].
  intros o s1 t1 H1. cbn beta.
  destruct o as [[]|x]; wp_go; lines_solve.
Qed.

End Lines.

(** ** Bounded retries *)

Section Bounded.

Context {W : Type} (os : OS W).

(** [delete_path] calls itself with [entry_is_dir] where [recursive] is
    expected: for the entry it is called on, that is the same as
    passing [True]. *)
Theorem is_dir_for_recursive_is_recursive
    limit parent child force verbose s :
  delete_path os limit parent child force (cc_is_dir child) verbose s
  = delete_path os limit parent child force true verbose s.
Proof.
  destruct limit as [|depth]; cbn [delete_path]; [reflexivity|].
  destruct (cc_is_dir child); reflexivity.
Qed.

(** No latch is ever cleared, in a whole run of [main] or in any call
    of [delete_path]: one that is set at the start is set at the end. *)
Theorem latches_are_never_reset :
  (forall args limit s,
     latches_grow (latches s) (latches (after (main os args limit s))))
  /\ (forall limit parent child force recursive verbose s,
        latches_grow
          (latches s)
          (latches (after (delete_path os limit parent child force recursive
                                       verbose s)))).
Proof.
  split.
  - intros. apply main_grows.
  - intros. apply (delete_path_grows os).
Qed.

(** Each of the two retrying functions makes at most four system calls:
    the attempt, the stat, the chmod, the second attempt. *)
Theorem at_most_four_system_calls parent child force verbose s :
  count is_syscall (events (delete_single_with_chmod os parent child force
                                                     verbose s)) <= 4
  /\ count is_syscall (events (open_with_chmod os parent child s)) <= 4.
Proof.
  split.
  - change (wp (delete_single_with_chmod os parent child force verbose) s
               (fun _ _ t => count is_syscall t <= 4)).
    unfold delete_single_with_chmod, delete_attempt, delete_single.
    repeat (script_unfold; wp_step; cbn [latches world]; rewrite ?nth_store;
            cbn beta iota);
      cbn; lia.
  - change (wp (open_with_chmod os parent child) s
               (fun _ _ t => count is_syscall t <= 4)).
    unfold open_with_chmod, open_attempt.
    repeat (script_unfold; wp_step; cbn [latches world]; rewrite ?nth_store;
            cbn beta iota);
      cbn; lia.
Qed.

(** Once the parent's latch is set, [delete_single_with_chmod] makes
    one system call, the removal itself, and raises what it raises but
    for a missing entry under [force]: no stat, no chmod, no second
    attempt. *)
Theorem latch_set_means_one_attempt parent child force verbose s :
  nth (pc_attempted_chmod parent) (latches s) false = true ->
  exists a,
    filter is_syscall
           (events (delete_single_with_chmod os parent child force verbose s))
    = [Sys (if cc_is_dir child
            then Rmdir (cc_name child) (pc_fd parent)
            else Unlink (cc_name child) (pc_fd parent)) a]
    /\ latches (after (delete_single_with_chmod os parent child force verbose s))
       = latches s.
Proof.
  intros Hlatch.
  change (wp (delete_single_with_chmod os parent child force verbose) s
             (fun _ s' t =>
                exists a,
                  filter is_syscall t
                  = [Sys (if cc_is_dir child
                          then Rmdir (cc_name child) (pc_fd parent)
                          else Unlink (cc_name child) (pc_fd parent)) a]
                  /\ latches s' = latches s)).
  unfold delete_single_with_chmod, delete_attempt, delete_single.
  repeat (script_unfold; wp_step; cbn [latches world]; rewrite ?Hlatch;
          cbn beta iota);
    cbn; eauto.
Qed.

(** The same for [open_with_chmod] and the child's latch. *)
Theorem child_latch_set_means_one_open parent child s :
  nth (cc_attempted_chmod child) (latches s) false = true ->
  exists a,
    events (open_with_chmod os parent child s)
    = [Sys (Open (cc_name child) (Some (pc_fd parent))) a]
    /\ latches (after (open_with_chmod os parent child s)) = latches s.
Proof.
  intros Hlatch.
  change (wp (open_with_chmod os parent child) s
             (fun _ s' t =>
                exists a,
                  t = [Sys (Open (cc_name child) (Some (pc_fd parent))) a]
                  /\ latches s' = latches s)).
  unfold open_with_chmod, open_attempt.
  repeat (script_unfold; wp_step; cbn [latches world]; rewrite ?Hlatch;
          cbn beta iota);
    cbn; eauto.
Qed.

(** With [force], a top-level path that [realpath] does not find is
    passed over: [success] is left as it was, nothing is logged, and no
    other system call is made for it. *)
Theorem forced_missing_path_is_skipped args limit path success s w1 :
  arg_force args = true ->
  sys_realpath os path (world s) = (inl ENOENT, w1) ->
  main_path os args limit path success s
  = (Returned success, mkState w1 (latches s),
     [Sys (Realpath path) (Failed ENOENT)]).
Proof.
  intros Hforce Hreal.
  apply wp_run. unfold main_path, or_failed_to_find.
  wp_answered;
    try match goal with H : is_FileNotFoundError ENOENT = false |- _ =>
          discriminate H end;
    reflexivity.
Qed.

End Bounded.

(** ** Descriptor-relative traversal and the modes it sets *)

Lemma repaired_mode_ok st : mode_ok (Z.lor (S_IMODE st) S_IWUSR) = true.
Proof.
  unfold mode_ok, S_IMODE, S_IWUSR.
  assert (H : Z.lor (Z.land st 4095) 128 = Z.land (Z.lor st 128) 4095).
  { rewrite Z.land_lor_distr_l. reflexivity. }
  rewrite H.
  change 4095%Z with (Z.ones 12). rewrite Z.land_ones by lia.
  pose proof (Z.mod_pos_bound (Z.lor st 128) (2 ^ 12) ltac:(lia)) as [Hlo Hhi].
  apply andb_true_iff. split; [apply andb_true_iff; split|].
  - apply Z.leb_le. exact Hlo.
  - apply Z.ltb_lt. exact Hhi.
  - rewrite Z.mod_pow2_bits_low by lia.
    rewrite Z.lor_spec. apply orb_true_r.
Qed.

Ltac events_solve :=
  cbn beta in *;
  rewrite ?forallb_app;
  cbn [forallb chmod_mode_ok is_relative andb app];
  rewrite ?repaired_mode_ok;
  repeat match goal with
         | H : forallb _ ?t = true |- context [forallb _ ?t] => rewrite H
         end;
  cbn [andb];
  try reflexivity.

Section Relative.

Context {W : Type} (os : OS W).

Ltac traversal_solve :=
  cbn beta in *;
  rewrite ?forallb_app;
  cbn [forallb in_traversal chmod_mode_ok is_relative andb app];
  rewrite ?repaired_mode_ok;
  repeat match goal with
         | H : forallb _ ?t = true |- context [forallb _ ?t] => rewrite H
         end;
  cbn [andb];
  try reflexivity.

Lemma delete_single_with_chmod_in_traversal parent child force verbose s :
  wp (delete_single_with_chmod os parent child force verbose) s
     (fun _ _ t => forallb in_traversal t = true).
Proof.
  unfold delete_single_with_chmod, delete_attempt, delete_single.
  wp_go; traversal_solve.
Qed.

Lemma open_with_chmod_in_traversal parent child s :
  wp (open_with_chmod os parent child) s
     (fun _ _ t => forallb in_traversal t = true).
Proof.
  unfold open_with_chmod, open_attempt.
  wp_go; traversal_solve.
Qed.

Lemma scan_entries_in_traversal
    (recurse : ParentContext -> ChildContext -> bool -> bool -> bool -> Eff W bool)
    dir_name dir_fd child force verbose :
  (forall p c f r v s,
     wp (recurse p c f r v) s (fun _ _ t => forallb in_traversal t = true)) ->
  forall entries stop success s,
    wp (scan_entries recurse dir_name dir_fd child force verbose
                     entries stop success) s
       (fun _ _ t => forallb in_traversal t = true).
Proof.
  intros Hrec. induction entries as [|entry rest IH]; intros stop success s;
    cbn [scan_entries].
  - wp_go; traversal_solve.
  - unfold scan_entry. wp_go; try solve [traversal_solve].
    eapply wp_conseq; [apply Hrec|]. intros o s' t Ht.
    destruct o as [ok|x]; [|traversal_solve].
    wp_go.
    eapply wp_conseq; [apply IH|]. intros o2 s2 t2 Ht2. traversal_solve.
Qed.

Lemma delete_path_in_traversal limit :
  forall parent child force recursive verbose s,
    wp (delete_path os limit parent child force recursive verbose) s
       (fun _ _ t => forallb in_traversal t = true).
Proof.
  induction limit as [|depth IH]; intros; cbn [delete_path].
  - wp_go. traversal_solve.
  - do 3 wp_step.
    eapply wp_conseq; [apply delete_single_with_chmod_in_traversal|].
    intros o1 s1 t1 H1. cbn beta.
    destruct o1 as [[]|[e1| | | |c1]]; wp_go; try solve [traversal_solve].
    eapply wp_conseq; [apply open_with_chmod_in_traversal|].
    intros o2 s2 t2 H2. cbn beta.
    destruct o2 as [dir_fd|[e2| | | |c2]]; wp_go; try solve [traversal_solve].
    eapply wp_conseq; [apply scan_entries_in_traversal; apply IH|].
    intros o4 s4 t4 H4. cbn beta.
    destruct o4 as [success|[e4| | | |c4]]; wp_go; try solve [traversal_solve].
    all: eapply wp_conseq; [apply delete_single_with_chmod_in_traversal|];
      intros o6 s6 t6 H6; cbn beta;
      destruct o6 as [[]|[e6| | | |c6]]; wp_go; traversal_solve.
Qed.

Lemma forallb_weaken {A} (p q : A -> bool) l :
  (forall x, p x = true -> q x = true) ->
  forallb p l = true -> forallb q l = true.
Proof.
  intros Hpq. induction l as [|x l IH]; cbn; [reflexivity|].
  intros H. apply andb_true_iff in H as [Hx Hl].
  rewrite (Hpq _ Hx), (IH Hl). reflexivity.
Qed.

(** Whatever [delete_path] does, it does relative to a descriptor: it
    never calls [realpath] and never opens a path without [dir_fd]. *)
Theorem traversal_never_resolves_a_path
    limit parent child force recursive verbose s :
  forallb is_relative
          (events (delete_path os limit parent child force recursive verbose s))
  = true.
Proof.
  eapply forallb_weaken; [|apply delete_path_in_traversal].
  intros ev H. unfold in_traversal in H.
  apply andb_true_iff in H. tauto.
Qed.

Lemma in_traversal_mode ev : in_traversal ev = true -> chmod_mode_ok ev = true.
Proof. unfold in_traversal. intros H. apply andb_true_iff in H. tauto. Qed.

Lemma main_path_modes args limit path success s :
  wp (main_path os args limit path success) s
     (fun _ _ t => forallb chmod_mode_ok t = true).
Proof.
  unfold main_path, or_failed_to_find.
  wp_go; try solve [events_solve].
  all: eapply wp_conseq; [apply delete_path_in_traversal|];
    intros o s' t Ht; cbn beta;
    apply (forallb_weaken _ _ _ in_traversal_mode) in Ht;
    destruct o as [ok|[e'| | | |c]]; wp_go; events_solve.
Qed.

(** Every mode [main] hands to [chmod] or [fchmod], whatever [stat]
    answered, consists of permission bits only, the owner's write bit
    among them. *)
Theorem every_chmod_sets_owner_write_and_only_permission_bits args limit s :
  forallb chmod_mode_ok (events (main os args limit s)) = true.
Proof.
  change (wp (main os args limit) s
             (fun _ _ t => forallb chmod_mode_ok t = true)).
  unfold main. wp_step.
  assert (Hloop : forall paths success s0,
             wp (main_loop os args limit paths success) s0
                (fun _ _ t => forallb chmod_mode_ok t = true)).
  { induction paths as [|path rest IH]; intros; cbn [main_loop].
    - wp_go. events_solve.
    - wp_step. eapply wp_conseq; [apply main_path_modes|].
      intros o s1 t1 H1. cbn beta. destruct o; [|events_solve].
      eapply wp_conseq; [apply IH|]. intros o2 s2 t2 H2. events_solve. }
  eapply wp_conseq; [apply Hloop|].
  intros o s1 t1 H1. cbn beta.
  destruct o as [[]|x]; wp_go; events_solve.
Qed.

End Relative.

(** ** Descriptors are used only while they are held *)

Lemma follow_app held t1 t2 :
  follow held (t1 ++ t2) =
  match follow held t1 with
  | Some h => follow h t2
  | None => None
  end.
Proof.
  revert held. induction t1 as [|ev t1 IH]; intros held; cbn; [reflexivity|].
  destruct (follow1 held ev); auto.
Qed.

Lemma holds_cons g held fd :
  holds (g :: held) fd = (Z.eqb fd g || holds held fd)%bool.
Proof. reflexivity. Qed.

Ltac holds_solve :=
  rewrite ?holds_cons, ?Z.eqb_refl; cbn [orb];
  repeat match goal with
         | H : holds _ _ = true |- _ => rewrite H
         end;
  rewrite ?orb_true_r; reflexivity.

Ltac follow_solve :=
  cbn beta in *;
  try (intros ?held ?Hheld);
  repeat (progress
            (rewrite ?follow_app; cbn [follow follow1 app];
             rewrite ?holds_cons, ?Z.eqb_refl; cbn [orb];
             repeat match goal with
                    | H : holds ?h ?d = true |- context [holds ?h ?d] =>
                        rewrite H
                    | H : uses ?d ?t |- context [follow ?h ?t] =>
                        rewrite (H h) by holds_solve
                    | H : opens_under ?d _ ?t |- context [follow ?h ?t] =>
                        rewrite (H h) by holds_solve
                    end;
             rewrite ?orb_true_r));
  try reflexivity.

Section Held.

Context {W : Type} (os : OS W).

Lemma delete_single_with_chmod_uses parent child force verbose s :
  wp (delete_single_with_chmod os parent child force verbose) s
     (fun _ _ t => uses (pc_fd parent) t).
Proof.
  unfold delete_single_with_chmod, delete_attempt, delete_single.
  wp_go; follow_solve.
Qed.

Lemma open_with_chmod_opens_under parent child s :
  wp (open_with_chmod os parent child) s
     (fun o _ t =>
        match o with
        | Returned fd => opens_under (pc_fd parent) fd t
        | Raised _ => uses (pc_fd parent) t
        end).
Proof.
  unfold open_with_chmod, open_attempt.
  wp_go; follow_solve.
Qed.

Lemma scan_entries_uses
    (recurse : ParentContext -> ChildContext -> bool -> bool -> bool -> Eff W bool)
    dir_name dir_fd child force verbose :
  (forall p c f r v s,
     wp (recurse p c f r v) s (fun _ _ t => uses (pc_fd p) t)) ->
  forall entries stop success s,
    wp (scan_entries recurse dir_name dir_fd child force verbose
                     entries stop success) s
       (fun _ _ t => uses dir_fd t).
Proof.
  intros Hrec. induction entries as [|entry rest IH]; intros stop success s;
    cbn [scan_entries].
  - wp_go; follow_solve.
  - unfold scan_entry. wp_go; try solve [follow_solve].
    eapply wp_conseq; [apply Hrec|]. cbn [pc_fd]. intros o s' t Ht.
    destruct o as [ok|x]; [|follow_solve].
    wp_go.
    eapply wp_conseq; [apply IH|]. intros o2 s2 t2 Ht2. follow_solve.
Qed.

Lemma delete_path_uses limit :
  forall parent child force recursive verbose s,
    wp (delete_path os limit parent child force recursive verbose) s
       (fun _ _ t => uses (pc_fd parent) t).
Proof.
  induction limit as [|depth IH]; intros; cbn [delete_path].
  - wp_go. follow_solve.
  - do 3 wp_step.
    eapply wp_conseq; [apply delete_single_with_chmod_uses|].
    intros o1 s1 t1 H1. cbn beta.
    destruct o1 as [[]|[e1| | | |c1]]; wp_go; try solve [follow_solve].
    eapply wp_conseq; [apply open_with_chmod_opens_under|].
    intros o2 s2 t2 H2. cbn beta.
    destruct o2 as [dir_fd|[e2| | | |c2]]; wp_go; try solve [follow_solve].
    eapply wp_conseq; [apply scan_entries_uses; apply IH|].
    intros o4 s4 t4 H4. cbn beta.
    destruct o4 as [success|[e4| | | |c4]]; wp_go; try solve [follow_solve].
    all: eapply wp_conseq; [apply delete_single_with_chmod_uses|];
      intros o6 s6 t6 H6; cbn beta;
      destruct o6 as [[]|[e6| | | |c6]]; wp_go; follow_solve.
Qed.

End Held.

(** ** The batch as a whole *)

Lemma drop_while_keeps (f : ascii -> bool) l x :
  In x l -> f x = false -> drop_while f l <> [].
Proof.
  induction l as [|c l IH]; cbn; [tauto|].
  intros [->|Hin] Hx.
  - rewrite Hx. discriminate.
  - destruct (f c); [auto|discriminate].
Qed.

Lemma forallb_false_witness (f : ascii -> bool) l :
  forallb f l = false -> exists x, In x l /\ f x = false.
Proof.
  induction l as [|c l IH]; cbn; [discriminate|].
  destruct (f c) eqn:Hc; cbn.
  - intros H. destruct (IH H) as [x [Hin Hx]]. eauto.
  - intros _. eauto.
Qed.

Lemma nonempty_string l :
  l <> [] -> String.eqb (string_of_list_ascii (rev l)) "" = false.
Proof.
  destruct l as [|c l]; [congruence|]. intros _. cbn [rev].
  destruct (rev l) as [|d r]; reflexivity.
Qed.

(** The head of an absolute path is never empty. *)
Lemma path_split_absolute p :
  starts_with_sep p = true -> String.eqb (fst (path_split p)) "" = false.
Proof.
  destruct p as [|c rest]; cbn [starts_with_sep]; [discriminate|].
  intros Hc. unfold path_split. cbn [fst list_ascii_of_string rev].
  set (r := rev (list_ascii_of_string rest) ++ [c]).
  assert (Hhead : drop_while (fun c0 => negb (is_sep c0)) r <> []).
  { apply (drop_while_keeps _ r c).
    - unfold r. apply in_or_app. right. left. reflexivity.
    - rewrite Hc. reflexivity. }
  destruct (forallb is_sep (drop_while (fun c0 => negb (is_sep c0)) r)) eqn:Hall.
  - apply nonempty_string. exact Hhead.
  - apply nonempty_string.
    destruct (forallb_false_witness _ _ Hall) as [x [Hin Hx]].
    apply (drop_while_keeps _ _ x); assumption.
Qed.

Lemma resolved_paths_app t1 t2 :
  resolved_paths (t1 ++ t2) = resolved_paths t1 ++ resolved_paths t2.
Proof. apply flat_map_app. Qed.

Lemma relative_resolves_nothing t :
  forallb is_relative t = true -> resolved_paths t = [].
Proof.
  unfold resolved_paths.
  induction t as [|ev t IH]; cbn [forallb flat_map]; [reflexivity|].
  intros H. apply andb_true_iff in H as [Hev Ht].
  rewrite (IH Ht). destruct ev as [[] a|l]; try discriminate; reflexivity.
Qed.

Lemma in_traversal_relative ev : in_traversal ev = true -> is_relative ev = true.
Proof. unfold in_traversal. intros H. apply andb_true_iff in H. tauto. Qed.

Ltac paths_solve :=
  cbn beta in *;
  rewrite ?resolved_paths_app;
  cbn [resolved_paths flat_map app];
  repeat match goal with
         | H : resolved_paths ?t = _ |- context [resolved_paths ?t] => rewrite H
         end;
  cbn [app]; rewrite ?app_nil_r;
  try reflexivity.

Section Whole.

Context {W : Type} (os : OS W).

Lemma main_path_resolves_its_path args limit path success s :
  wp (main_path os args limit path success) s
     (fun _ _ t => resolved_paths t = [path]).
Proof.
  unfold main_path, or_failed_to_find.
  wp_go; try solve [paths_solve].
  all: eapply wp_conseq; [apply delete_path_in_traversal|];
    intros o s' t Ht; cbn beta;
    apply (forallb_weaken _ _ _ in_traversal_relative) in Ht;
    apply relative_resolves_nothing in Ht;
    destruct o as [ok|[e'| | | |c]]; wp_go; paths_solve.
Qed.

Lemma main_loop_resolves_every_path args limit paths :
  forall success s,
    wp (main_loop os args limit paths success) s
       (fun o _ t => (exists b, o = Returned b) -> resolved_paths t = paths).
Proof.
  induction paths as [|path rest IH]; intros; cbn [main_loop].
  - wp_go. reflexivity.
  - wp_step. eapply wp_conseq; [apply main_path_resolves_its_path|].
    intros o s1 t1 H1. cbn beta.
    destruct o as [success'|x]; [|intros [b Hb]; discriminate].
    eapply wp_conseq; [apply IH|]. intros o2 s2 t2 H2. cbn beta.
    intros Hret. rewrite resolved_paths_app, H1, (H2 Hret). reflexivity.
Qed.

(** When [main] runs to its end, with status 0 or 1, it has resolved
    every path of [args.path], each once and in order: a path that
    fails does not keep the later ones from being tried. *)
Theorem every_path_is_tried args limit s :
  out (main os args limit s) = Returned tt
  \/ out (main os args limit s) = Raised (SystemExit 1) ->
  resolved_paths (events (main os args limit s)) = arg_path args.
Proof.
  change (wp (main os args limit) s
             (fun o _ t =>
                o = Returned tt \/ o = Raised (SystemExit 1) ->
                resolved_paths t = arg_path args)).
  unfold main. wp_step.
  eapply wp_conseq;
    [apply wp_both; [apply main_loop_resolves_every_path|apply main_loop_escapes]|].
  intros o s1 t1 [H1 E]. cbn beta.
  destruct o as [[]|x]; wp_go.
  - intros _. paths_solve. apply H1. eauto.
  - intros _. paths_solve. apply H1. eauto.
  - intros [Hx|Hx]; [discriminate|]. injection Hx as ->. contradiction.
Qed.

Lemma main_path_assertion_holds args limit path success s :
  absolute_realpath os ->
  wp (main_path os args limit path success) s
     (fun o _ _ => o <> Raised AssertionError).
Proof.
  intros Habs.
  unfold main_path, or_failed_to_find.
  wp_go; try discriminate.
  all: try match goal with
           | Hr : sys_realpath os _ _ = (inr ?v, _),
             Hs : String.eqb (fst (path_split ?v)) "" = true |- _ =>
               rewrite (path_split_absolute _ (Habs _ _ _ _ Hr)) in Hs;
               discriminate Hs
           end.
  all: eapply wp_conseq; [apply delete_path_escapes|];
    intros o s' t Ht; cbn beta;
    destruct o as [ok|[e'| | | |c]]; try contradiction; wp_go; discriminate.
Qed.

(** On an operating system whose [realpath] answers absolute paths
    only, the assertion of [main] on the parent name never fails. *)
Theorem parent_name_assertion_never_fails args limit s :
  absolute_realpath os ->
  out (main os args limit s) <> Raised AssertionError.
Proof.
  intros Habs.
  change (wp (main os args limit) s (fun o _ _ => o <> Raised AssertionError)).
  unfold main. wp_step.
  assert (Hloop : forall paths success s0,
             wp (main_loop os args limit paths success) s0
                (fun o _ _ => o <> Raised AssertionError)).
  { induction paths as [|path rest IH]; intros; cbn [main_loop].
    - wp_go. discriminate.
    - wp_step. eapply wp_conseq; [apply main_path_assertion_holds; exact Habs|].
      intros o s1 t1 H1. cbn beta. destruct o; [|exact H1].
      apply IH. }
  eapply wp_conseq; [apply Hloop|].
  intros o s1 t1 H1. cbn beta.
  destruct o as [[]|x]; wp_go; try discriminate. congruence.
Qed.

Lemma main_path_follows args limit path success s :
  wp (main_path os args limit path success) s
     (fun _ _ t => forall held, follow held t = Some held).
Proof.
  unfold main_path, or_failed_to_find.
  wp_go; try solve [intros held; follow_solve].
  all: eapply wp_conseq; [apply delete_path_uses|]; cbn [pc_fd];
    intros o s' t Ht; cbn beta;
    destruct o as [ok|[e'| | | |c]]; wp_go; intros held; follow_solve.
Qed.

(** Along any run of [main], every system call that takes a descriptor
    names one that the run has opened and not yet closed, and each is
    closed once, innermost first: nothing is used after it is closed. *)
Theorem descriptors_used_only_while_open args limit s :
  follow [] (events (main os args limit s)) = Some [].
Proof.
  cut (forall held, follow held (events (main os args limit s)) = Some held);
    [auto|].
  change (wp (main os args limit) s
             (fun _ _ t => forall held, follow held t = Some held)).
  unfold main. wp_step.
  assert (Hloop : forall paths success s0,
             wp (main_loop os args limit paths success) s0
                (fun _ _ t => forall held, follow held t = Some held)).
  { induction paths as [|path rest IH]; intros; cbn [main_loop].
    - wp_go. reflexivity.
    - wp_step. eapply wp_conseq; [apply main_path_follows|].
      intros o s1 t1 H1. cbn beta.
      destruct o; [|exact H1].
      eapply wp_conseq; [apply IH|]. intros o2 s2 t2 H2 held.
      rewrite follow_app, H1. apply H2. }
  eapply wp_conseq; [apply Hloop|].
  intros o s1 t1 H1. cbn beta.
  destruct o as [[]|x]; wp_go; intros held; rewrite ?follow_app, ?H1;
    try reflexivity; apply H1.
Qed.

End Whole.

(** ** One repair for each handle *)

Lemma count_cons p ev t : count p (ev :: t) = Nat.b2n (p ev) + count p t.
Proof. unfold count. cbn [filter]. destruct (p ev); reflexivity. Qed.

Lemma count_nil p : count p [] = 0.
Proof. reflexivity. Qed.

Lemma never_opens_app fd t1 t2 :
  never_opens fd (t1 ++ t2) = (never_opens fd t1 && never_opens fd t2)%bool.
Proof. apply forallb_app. Qed.

Lemma never_opens_cons fd ev t :
  never_opens fd (ev :: t) = (negb (returns_fd fd ev) && never_opens fd t)%bool.
Proof. reflexivity. Qed.

Lemma spent_le_1 {W} r (s : state W) : spent r s <= 1.
Proof. unfold spent. destruct (latch r s); cbn; lia. Qed.

Lemma spent_grows {W} r (s s' : state W) :
  latches_grow (latches s) (latches s') -> spent r s <= spent r s'.
Proof.
  unfold spent, latch. intros H. specialize (H r).
  destruct (nth r (latches s) false); [rewrite H by reflexivity|]; cbn; lia.
Qed.

(** Split what is known of [never_opens] on a trace into what is known
    of its parts. *)
Ltac opens_split :=
  repeat match goal with
         | H : never_opens _ (_ ++ _) = true |- _ =>
             rewrite never_opens_app in H; apply andb_true_iff in H;
             destruct H as [? ?]
         | H : never_opens _ (_ :: _) = true |- _ =>
             rewrite never_opens_cons in H; apply andb_true_iff in H;
             destruct H as [? ?]
         end.

Section Repairs.

Context {W : Type} (os : OS W).

(** *** The calls on another descriptor *)

Lemma delete_single_with_chmod_elsewhere kind fd parent child force verbose s :
  pc_fd parent <> fd ->
  wp (delete_single_with_chmod os parent child force verbose) s
     (fun _ _ t => count (touches_mode kind fd) t = 0).
Proof.
  intros Hfd. apply Z.eqb_neq in Hfd.
  unfold delete_single_with_chmod, delete_attempt, delete_single.
  wp_go; unfold count; cbn [filter touches_mode app]; rewrite ?Hfd, ?andb_false_r;
    cbn [List.length]; reflexivity.
Qed.

Lemma open_with_chmod_repairs_nothing kind fd parent child s :
  wp (open_with_chmod os parent child) s
     (fun _ _ t => count (touches_mode kind fd) t = 0).
Proof.
  unfold open_with_chmod, open_attempt.
  wp_go; reflexivity.
Qed.

(** The descriptor that [open_with_chmod] returns is one that an
    [os.open] of its trace answered. *)
Lemma open_with_chmod_opens_it parent child s :
  wp (open_with_chmod os parent child) s
     (fun o _ t => match o with
                   | Returned d => never_opens d t = false
                   | Raised _ => True
                   end).
Proof.
  unfold open_with_chmod, open_attempt.
  wp_go; try exact I;
    unfold never_opens; rewrite ?forallb_app; cbn [forallb returns_fd];
    rewrite Z.eqb_refl; cbn; rewrite ?andb_false_r; reflexivity.
Qed.

Lemma wp_impl {A} (P : Prop) (m : Eff W A) s
    (Q : outcome A -> state W -> trace -> Prop) :
  (P -> wp m s Q) -> wp m s (fun o s' t => P -> Q o s' t).
Proof. unfold wp. auto. Qed.

(** A goal on the count of repairs along a trace put together from
    traces whose own counts are in the context. *)
Ltac quiet_solve :=
  cbn beta in *; intros; opens_split;
  rewrite ?count_app, ?count_cons; cbn [touches_mode Nat.b2n];
  repeat match goal with
         | H : never_opens ?fd ?t = true -> _,
           H' : never_opens ?fd ?t = true |- _ => specialize (H H')
         | O : never_opens ?d ?t = false, H' : never_opens ?fd ?t = true,
           H : ?d <> ?fd -> _ |- _ =>
             let N := fresh in
             assert (N : d <> fd) by congruence; specialize (H N)
         end;
  repeat match goal with
         | H : count _ ?t = 0 |- context [count _ ?t] => rewrite H
         end;
  try reflexivity; try lia.

Lemma scan_entries_elsewhere kind fd
    (recurse : ParentContext -> ChildContext -> bool -> bool -> bool -> Eff W bool)
    dir_name dir_fd child force verbose :
  dir_fd <> fd ->
  (forall p c f r v s,
     pc_fd p <> fd ->
     wp (recurse p c f r v) s
        (fun _ _ t => never_opens fd t = true ->
                      count (touches_mode kind fd) t = 0)) ->
  forall entries stop success s,
    wp (scan_entries recurse dir_name dir_fd child force verbose
                     entries stop success) s
       (fun _ _ t => never_opens fd t = true ->
                     count (touches_mode kind fd) t = 0).
Proof.
  intros Hfd Hrec. induction entries as [|entry rest IH]; intros stop success s;
    cbn [scan_entries].
  - wp_go; quiet_solve.
  - wp_step. unfold scan_entry. wp_go; try solve [quiet_solve].
    all: eapply wp_conseq; [apply Hrec; exact Hfd|];
      intros o s' t Ht; cbn beta;
      (destruct o; [|quiet_solve]);
      wp_go;
      (eapply wp_conseq; [apply IH|]); intros o2 s2 t2 H2; quiet_solve.
Qed.

Lemma delete_path_elsewhere kind fd limit :
  forall parent child force recursive verbose s,
    pc_fd parent <> fd ->
    wp (delete_path os limit parent child force recursive verbose) s
       (fun _ _ t => never_opens fd t = true ->
                     count (touches_mode kind fd) t = 0).
Proof.
  induction limit as [|depth IH]; intros parent child force recursive verbose s Hfd;
    cbn [delete_path].
  - wp_go. quiet_solve.
  - do 3 wp_step.
    eapply wp_conseq;
      [apply (delete_single_with_chmod_elsewhere kind); exact Hfd|].
    intros o1 s1 t1 H1. cbn beta.
    destruct o1 as [[]|[e1| | | |c1]]; wp_go; try solve [quiet_solve].
    eapply wp_conseq;
      [apply wp_both;
       [apply (open_with_chmod_repairs_nothing kind fd)
       |apply open_with_chmod_opens_it]|].
    intros o2 s2 t2 [H2 O2]. cbn beta.
    destruct o2 as [dir_fd|[e2| | | |c2]]; wp_go; try solve [quiet_solve].
    1: eapply wp_conseq;
      [apply wp_impl; intros Hnew;
       apply (scan_entries_elsewhere kind); [exact Hnew|apply IH]|];
      intros o4 s4 t4 H4; cbn beta;
      destruct o4 as [success|[e4| | | |c4]]; wp_go; try solve [quiet_solve].
    all: try (eapply wp_conseq;
      [apply (delete_single_with_chmod_elsewhere kind); exact Hfd|];
      intros o6 s6 t6 H6; cbn beta;
      destruct o6 as [[]|[e6| | | |c6]]; wp_go; quiet_solve).
Qed.

(** *** The calls on the descriptor itself *)

Lemma delete_single_with_chmod_charged kind parent child force verbose s :
  wp (delete_single_with_chmod os parent child force verbose) s
     (fun _ s' t =>
        charged kind (pc_fd parent) (pc_attempted_chmod parent) s s' t).
Proof.
  unfold delete_single_with_chmod, delete_attempt, delete_single.
  repeat (script_unfold; wp_step; cbn [latches world]; rewrite ?nth_store;
          cbn beta iota);
    unfold charged, spent, latch, count; cbn [latches filter touches_mode app];
    rewrite ?nth_store, ?Z.eqb_refl;
    repeat match goal with
           | H : nth _ _ false = _ |- _ => rewrite H
           end;
    destruct kind; cbn; lia.
Qed.

Lemma open_with_chmod_spends_nothing_here kind fd r parent child s :
  wp (open_with_chmod os parent child) s
     (fun o s' t =>
        spent r s <= spent r s'
        /\ count (touches_mode kind fd) t = 0
        /\ match o with
           | Returned d => never_opens d t = false
           | Raised _ => True
           end).
Proof.
  eapply wp_conseq;
    [apply wp_both;
     [apply open_with_chmod_grows
     |apply wp_both;
      [apply (open_with_chmod_repairs_nothing kind fd)
      |apply open_with_chmod_opens_it]]|].
  intros o s' t [G [C O]]. cbn beta in *.
  split; [apply spent_grows; exact G|]. split; assumption.
Qed.

Lemma scan_entries_spend_nothing_there kind fd r depth
    dir_name dir_fd child force verbose entries stop success s :
  wp (scan_entries (delete_path os depth) dir_name dir_fd child force verbose
                   entries stop success) s
     (fun _ s' t =>
        spent r s <= spent r s'
        /\ (dir_fd <> fd -> never_opens fd t = true ->
            count (touches_mode kind fd) t = 0)).
Proof.
  eapply wp_conseq;
    [apply wp_both;
     [apply scan_entries_grows; apply delete_path_grows
     |apply wp_impl; intros Hnew;
      apply (scan_entries_elsewhere kind);
      [exact Hnew|intros; apply delete_path_elsewhere; assumption]]|].
  intros o s' t [G C]. cbn beta in *.
  split; [apply spent_grows; exact G|exact C].
Qed.

Ltac charge_solve :=
  cbn beta in *; intros; opens_split;
  repeat match goal with
         | H : _ /\ _ |- _ => destruct H
         end;
  repeat match goal with
         | H : never_opens ?fd ?t = true -> _,
           H' : never_opens ?fd ?t = true |- _ => specialize (H H')
         | O : never_opens ?d ?t = false, H' : never_opens ?fd ?t = true,
           H : ?d <> ?fd -> _ |- _ =>
             let N := fresh in
             assert (N : d <> fd) by congruence; specialize (H N)
         end;
  unfold charged, spent, latch in *; cbn [latches] in *;
  rewrite ?count_app, ?count_cons, ?count_nil; cbn [touches_mode Nat.b2n];
  try lia.

(** Whatever [delete_path] does with its parent's descriptor, the
    parent's latch pays for the repairs. *)
Lemma delete_path_charged kind limit parent child force recursive verbose s :
  wp (delete_path os limit parent child force recursive verbose) s
     (fun _ s' t =>
        never_opens (pc_fd parent) t = true ->
        charged kind (pc_fd parent) (pc_attempted_chmod parent) s s' t).
Proof.
  destruct limit as [|depth]; cbn [delete_path].
  - wp_go. charge_solve.
  - do 3 wp_step.
    eapply wp_conseq; [apply (delete_single_with_chmod_charged kind)|].
    intros o1 s1 t1 H1. cbn beta.
    destruct o1 as [[]|[e1| | | |c1]]; wp_go; try solve [charge_solve].
    eapply wp_conseq;
      [apply (open_with_chmod_spends_nothing_here
                kind (pc_fd parent) (pc_attempted_chmod parent))|].
    intros o2 s2 t2 H2. cbn beta.
    destruct o2 as [dir_fd|[e2| | | |c2]]; wp_go; try solve [charge_solve].
    1: eapply wp_conseq;
      [apply (scan_entries_spend_nothing_there
                kind (pc_fd parent) (pc_attempted_chmod parent))|];
      intros o4 s4 t4 H4; cbn beta;
      destruct o4 as [success|[e4| | | |c4]]; wp_go; try solve [charge_solve].
    all: try (eapply wp_conseq;
      [apply (delete_single_with_chmod_charged kind)|];
      intros o6 s6 t6 H6; cbn beta;
      destruct o6 as [[]|[e6| | | |c6]]; wp_go; charge_solve).
Qed.

Lemma nth_new_latch (l l' : list bool) b :
  nth (List.length l) ((l ++ [b]) ++ l') false = b.
Proof.
  rewrite <- app_assoc. rewrite app_nth2 by lia.
  rewrite Nat.sub_diag. reflexivity.
Qed.

(** The listing loop of one directory: while it goes on, the repairs
    of the directory's descriptor are paid for by the latch of the
    directory; an exception ends it. *)
Lemma scan_entries_charged kind depth dir_name dir_fd child force verbose entries :
  forall stop success s,
    wp (scan_entries (delete_path os depth) dir_name dir_fd child force verbose
                     entries stop success) s
       (fun o s' t =>
          never_opens dir_fd t = true ->
          spent (cc_attempted_chmod child) s
          + count (touches_mode kind dir_fd) t
          <= match o with
             | Returned _ => spent (cc_attempted_chmod child) s'
             | Raised _ => 1
             end).
Proof.
  induction entries as [|entry rest IH]; intros stop success s;
    cbn [scan_entries].
  - wp_go; intros _; rewrite count_nil;
      pose proof (spent_le_1 (cc_attempted_chmod child) s); lia.
  - wp_step. unfold scan_entry. wp_go.
    + intros _. cbn [app]. rewrite count_nil.
      pose proof (spent_le_1 (cc_attempted_chmod child) s). lia.
    + eapply wp_conseq; [apply (delete_path_charged kind)|].
      cbn [pc_fd pc_attempted_chmod app latches].
      intros o s1 t1 H1.
      unfold charged, spent, latch in H1. cbn [latches] in H1.
      rewrite nth_new_latch in H1.
      destruct o as [ok|x].
      * wp_go. eapply wp_conseq; [apply IH|].
        intros o0 s0 t0 H0. cbn beta in *. cbn [app]. rewrite app_nil_r.
        intros Hno. opens_split.
        unfold spent, latch in *. cbn [latches] in H0.
        rewrite nth_store in H0. rewrite count_app.
        match type of H1 with ?P -> _ => assert (Hp : P) by assumption end.
        match type of H0 with ?P -> _ => assert (Hq : P) by assumption end.
        specialize (H1 Hp). specialize (H0 Hq).
        destruct (nth (cc_attempted_chmod child) (latches s1) false),
                 (nth (List.length (latches s)) (latches s1) false);
          cbn [orb Nat.b2n] in *; lia.
      * intros Hno. specialize (H1 Hno). unfold spent, latch.
        destruct (nth (List.length (latches s)) (latches s1) false);
          cbn [Nat.b2n] in *; lia.
Qed.

(** Along one call of [delete_path], the parent's descriptor is
    repaired at most once, [fstat] and [fchmod] each at most once, and
    not at all when the parent's latch is already set; the descriptor
    is the parent's as long as no [os.open] of the call answers the
    same number again. *)
Theorem parent_repaired_at_most_once
    limit parent child force recursive verbose s :
  let r := delete_path os limit parent child force recursive verbose s in
  never_opens (pc_fd parent) (events r) = true ->
  count (is_fstat (pc_fd parent)) (events r) <= 1
  /\ count (is_fchmod (pc_fd parent)) (events r) <= 1
  /\ (latch (pc_attempted_chmod parent) s = true ->
      count (is_fstat (pc_fd parent)) (events r) = 0
      /\ count (is_fchmod (pc_fd parent)) (events r) = 0).
Proof.
  intros r Hno.
  pose proof (delete_path_charged true limit parent child force recursive
                                  verbose s) as Hs.
  pose proof (delete_path_charged false limit parent child force recursive
                                  verbose s) as Hc.
  unfold wp in Hs, Hc. fold r in Hs, Hc.
  specialize (Hs Hno). specialize (Hc Hno).
  unfold charged, spent in Hs, Hc. unfold is_fstat, is_fchmod.
  pose proof (spent_le_1 (pc_attempted_chmod parent) (after r)) as Hle.
  unfold spent in Hle.
  split; [lia|]. split; [lia|].
  intros Hset. rewrite Hset in *. cbn [Nat.b2n] in *. lia.
Qed.

(** The listing loop of a directory deletes every child through the
    directory's one descriptor: over the whole loop that descriptor is
    repaired at most once, whichever child's deletion asked for it, and
    not at all when the directory's latch was set before (by
    [open_with_chmod]); after a repair, the latch is set when the loop
    returns. *)
Theorem one_repair_for_all_children
    depth dir_name dir_fd child force verbose entries stop success s :
  let r := scan_entries (delete_path os depth) dir_name dir_fd child force
                        verbose entries stop success s in
  never_opens dir_fd (events r) = true ->
  count (is_fstat dir_fd) (events r) <= 1
  /\ count (is_fchmod dir_fd) (events r) <= 1
  /\ (latch (cc_attempted_chmod child) s = true ->
      count (is_fstat dir_fd) (events r) = 0
      /\ count (is_fchmod dir_fd) (events r) = 0)
  /\ (forall ok, out r = Returned ok ->
      0 < count (is_fstat dir_fd) (events r) ->
      latch (cc_attempted_chmod child) (after r) = true).
Proof.
  intros r Hno.
  pose proof (scan_entries_charged true depth dir_name dir_fd child force
                                   verbose entries stop success s) as Hs.
  pose proof (scan_entries_charged false depth dir_name dir_fd child force
                                   verbose entries stop success s) as Hc.
  unfold wp in Hs, Hc. fold r in Hs, Hc.
  specialize (Hs Hno). specialize (Hc Hno).
  unfold spent in Hs, Hc. unfold is_fstat, is_fchmod.
  pose proof (spent_le_1 (cc_attempted_chmod child) (after r)) as Hle.
  unfold spent in Hle.
  assert (Hs1 : Nat.b2n (latch (cc_attempted_chmod child) s)
                + count (touches_mode true dir_fd) (events r) <= 1)
    by (destruct (out r); lia).
  assert (Hc1 : Nat.b2n (latch (cc_attempted_chmod child) s)
                + count (touches_mode false dir_fd) (events r) <= 1)
    by (destruct (out r); lia).
  split; [lia|]. split; [lia|]. split.
  - intros Hset. rewrite Hset in *. cbn [Nat.b2n] in *. lia.
  - intros ok Hok Hpos. rewrite Hok in Hs.
    destruct (latch (cc_attempted_chmod child) (after r)); [reflexivity|].
    cbn [Nat.b2n] in *. lia.
Qed.

End Repairs.

(** ** Flags are only set, and a handle is repaired once *)

Section Latched.

Context {W : Type} (os : OS W).

(** C6: an [attempted_chmod] flag that is set stays set, through a whole
    run of [main] and through any call of [delete_path]; and over the
    listing loop of a directory, where every child is deleted through
    the directory's one descriptor, that descriptor is repaired at most
    once, by one [fstat] and one [fchmod]: after the repair that one
    child's failure asked for, none is made for any other child, and
    none at all when the directory's flag was set before the loop.  The
    descriptor is the directory's as long as no [os.open] of the loop
    answers the same number again. *)
Theorem flags_only_set_and_one_repair_per_handle :
  (forall args limit s,
     latches_grow (latches s) (latches (after (main os args limit s))))
  /\ (forall limit parent child force recursive verbose s,
        latches_grow
          (latches s)
          (latches (after (delete_path os limit parent child force recursive
                                       verbose s))))
  /\ (forall depth dir_name dir_fd child force verbose entries stop success s,
        let r := scan_entries (delete_path os depth) dir_name dir_fd child
                              force verbose entries stop success s in
        never_opens dir_fd (events r) = true ->
        latches_grow (latches s) (latches (after r))
        /\ count (is_fstat dir_fd) (events r) <= 1
        /\ count (is_fchmod dir_fd) (events r) <= 1
        /\ (latch (cc_attempted_chmod child) s = true ->
            count (is_fstat dir_fd) (events r) = 0
            /\ count (is_fchmod dir_fd) (events r) = 0)).
Proof.
  split; [|split].
  - intros. apply main_grows.
  - intros. apply (delete_path_grows os).
  - intros depth dir_name dir_fd child force verbose entries stop success s r Hno.
    split.
    { apply (scan_entries_grows (delete_path os depth) dir_name dir_fd child
                                force verbose (delete_path_grows os depth)). }
    pose proof (scan_entries_charged os true depth dir_name dir_fd child force
                                     verbose entries stop success s) as Hs.
    pose proof (scan_entries_charged os false depth dir_name dir_fd child force
                                     verbose entries stop success s) as Hc.
    unfold wp in Hs, Hc. fold r in Hs, Hc.
    specialize (Hs Hno). specialize (Hc Hno).
    unfold spent in Hs, Hc. unfold is_fstat, is_fchmod.
    pose proof (spent_le_1 (cc_attempted_chmod child) (after r)) as Hle.
    unfold spent in Hle.
    assert (Hs1 : Nat.b2n (latch (cc_attempted_chmod child) s)
                  + count (touches_mode true dir_fd) (events r) <= 1)
      by (destruct (out r); lia).
    assert (Hc1 : Nat.b2n (latch (cc_attempted_chmod child) s)
                  + count (touches_mode false dir_fd) (events r) <= 1)
      by (destruct (out r); lia).
    split; [lia|]. split; [lia|].
    intros Hset. rewrite Hset in *. cbn [Nat.b2n] in *. lia.
Qed.

End Latched.

(** ** A success without [force] is a removal *)

Ltac in_solve :=
  cbn beta in *; intros;
  try discriminate;
  repeat match goal with
         | H : ?a = ?a -> _ |- _ => specialize (H eq_refl)
         end;
  repeat rewrite in_app_iff; cbn [In]; try tauto; auto.

Lemma removal_counts t ev :
  In ev t -> is_removal ev = true -> 1 <= count is_removal t.
Proof.
  intros Hin Hev. unfold count.
  assert (H : In ev (filter is_removal t)) by (apply filter_In; auto).
  destruct (filter is_removal t); [contradiction|cbn; lia].
Qed.

Section Success.

Context {W : Type} (os : OS W).

Lemma delete_single_with_chmod_removes parent child verbose s :
  wp (delete_single_with_chmod os parent child false verbose) s
     (fun o _ t => o = Returned tt -> In (removal_of parent child) t).
Proof.
  unfold delete_single_with_chmod, delete_attempt, delete_single, removal_of.
  repeat (script_unfold; wp_step; cbn [latches world]; rewrite ?nth_store;
          cbn beta iota);
    in_solve.
Qed.

Lemma delete_path_removes limit parent child recursive verbose s :
  wp (delete_path os limit parent child false recursive verbose) s
     (fun o _ t => o = Returned true -> In (removal_of parent child) t).
Proof.
  destruct limit as [|depth]; cbn [delete_path].
  - wp_go. in_solve.
  - do 3 wp_step.
    eapply wp_conseq; [apply delete_single_with_chmod_removes|].
    intros o1 s1 t1 H1. cbn beta.
    destruct o1 as [[]|[e1| | | |c1]]; wp_go; try solve [in_solve].
    eapply wp_conseq; [apply wp_any|].
    intros o2 s2 t2 _. cbn beta.
    destruct o2 as [dir_fd|[e2| | | |c2]]; wp_go; try solve [in_solve].
    1: eapply wp_conseq; [apply wp_any|];
      intros o4 s4 t4 _; cbn beta;
      destruct o4 as [success|[e4| | | |c4]]; wp_go; try solve [in_solve].
    all: try (eapply wp_conseq; [apply delete_single_with_chmod_removes|];
      intros o6 s6 t6 H6; cbn beta;
      destruct o6 as [[]|[e6| | | |c6]]; wp_go; in_solve).
Qed.

(** Without [force], [delete_path] answers [True] only when the system
    call that removes the child itself was answered with success: a
    success never stands for an entry that is still there as far as
    this process was told. *)
Theorem success_without_force_is_a_removal
    limit parent child recursive verbose s :
  out (delete_path os limit parent child false recursive verbose s)
  = Returned true ->
  In (removal_of parent child)
     (events (delete_path os limit parent child false recursive verbose s)).
Proof. apply delete_path_removes. Qed.

Lemma removal_of_is_removal parent child :
  is_removal (removal_of parent child) = true.
Proof. unfold removal_of. destruct (cc_is_dir child); reflexivity. Qed.

Lemma main_path_removes args limit path success s :
  arg_force args = false ->
  wp (main_path os args limit path success) s
     (fun o _ t => o = Returned true -> 1 <= count is_removal t).
Proof.
  intros Hforce. unfold main_path, or_failed_to_find. rewrite Hforce.
  wp_go; try discriminate.
  all: eapply wp_conseq; [apply delete_path_removes|];
    intros o s' t Ht; cbn beta;
    destruct o as [ok|[e'| | | |c]]; wp_go; try discriminate;
    intros [= Hok]; apply andb_true_iff in Hok; destruct Hok as [_ ->];
    specialize (Ht eq_refl);
    pose proof (removal_counts _ _ Ht (removal_of_is_removal _ _));
    rewrite ?count_app; lia.
Qed.

Lemma main_loop_removes args limit paths :
  arg_force args = false ->
  forall success s,
    wp (main_loop os args limit paths success) s
       (fun o _ t => o = Returned true ->
                     List.length paths <= count is_removal t).
Proof.
  intros Hforce.
  induction paths as [|path rest IH]; intros success s; cbn [main_loop].
  - wp_go. intros _. cbn. lia.
  - wp_step. eapply wp_conseq; [apply main_path_removes; exact Hforce|].
    intros o s1 t1 H1. cbn beta.
    destruct o as [[]|x]; [| |discriminate].
    + eapply wp_conseq; [apply IH|]. intros o2 s2 t2 H2 Hok.
      specialize (H1 eq_refl). specialize (H2 Hok).
      rewrite count_app. cbn [List.length]. lia.
    + pose proof (main_loop_keeps_failure os args limit rest s1) as Hk.
      unfold wp. intros Hok. contradiction.
Qed.

(** Without [force], a run of [main] that ends with status 0 has had
    at least one removal answered with success for each of its paths. *)
Theorem status_zero_means_every_path_removed args limit s :
  arg_force args = false ->
  out (main os args limit s) = Returned tt ->
  List.length (arg_path args) <= count is_removal (events (main os args limit s)).
Proof.
  intros Hforce.
  change (wp (main os args limit) s
             (fun o _ t => o = Returned tt ->
                           List.length (arg_path args) <= count is_removal t)).
  unfold main. wp_step.
  eapply wp_conseq; [apply main_loop_removes; exact Hforce|].
  intros o s1 t1 H1. cbn beta.
  destruct o as [[]|x]; wp_go; try discriminate.
  intros _. rewrite count_app, count_nil. specialize (H1 eq_refl). lia.
Qed.

End Success.

(** ** [verbose] only adds lines *)

Lemma hush_app t1 t2 : hush (t1 ++ t2) = hush t1 ++ hush t2.
Proof. apply filter_app. Qed.

Section Quieter.

Context {W : Type}.

Lemma quieter_bind {A B} (m m' : Eff W A) (k k' : A -> Eff W B) :
  quieter m m' -> (forall a, quieter (k a) (k' a)) ->
  quieter (bind m k) (bind m' k').
Proof.
  intros Hm Hk s. unfold bind. rewrite (Hm s).
  destruct (m s) as [[[a|x] s1] t1]; cbn [out after events fst snd];
    [|reflexivity].
  rewrite (Hk a s1).
  destruct (k a s1) as [[o2 s2] t2]; cbn [out after events fst snd].
  rewrite hush_app. reflexivity.
Qed.

Lemma quieter_except {A} (m m' : Eff W A) (h h' : errno -> Eff W A) :
  quieter m m' -> (forall e, quieter (h e) (h' e)) ->
  quieter (except_OSError m h) (except_OSError m' h').
Proof.
  intros Hm Hh s. unfold except_OSError. rewrite (Hm s).
  destruct (m s) as [[[a|[e| | | |c]] s1] t1]; cbn [out after events fst snd];
    try reflexivity.
  rewrite (Hh e s1).
  destruct (h e s1) as [[o2 s2] t2]; cbn [out after events fst snd].
  rewrite hush_app. reflexivity.
Qed.

Lemma quieter_finally {A} (m m' : Eff W A) (c c' : Eff W unit) :
  quieter m m' -> quieter c c' -> quieter (finally m c) (finally m' c').
Proof.
  intros Hm Hc s. unfold finally. rewrite (Hm s).
  destruct (m s) as [[o s1] t1]; cbn [out after events fst snd].
  rewrite (Hc s1).
  destruct (c s1) as [[oc s2] t2]; cbn [out after events fst snd].
  rewrite hush_app. reflexivity.
Qed.

Lemma quieter_ret {A} (a : A) : quieter (W := W) (ret a) (ret a).
Proof. intros s. reflexivity. Qed.

Lemma quieter_raise {A} x : quieter (W := W) (A := A) (raise x) (raise x).
Proof. intros s. reflexivity. Qed.

Lemma quieter_perform {T} c (inj : T -> answer) (op : W -> (errno + T) * W) :
  quieter (perform c inj op) (perform c inj op).
Proof.
  intros s. unfold perform. destruct (op (world s)) as [[e|v] w]; reflexivity.
Qed.

Lemma quieter_get_latch r : quieter (W := W) (get_latch r) (get_latch r).
Proof. intros s. reflexivity. Qed.

Lemma quieter_set_latch r b : quieter (W := W) (set_latch r b) (set_latch r b).
Proof. intros s. reflexivity. Qed.

Lemma quieter_new_latch b : quieter (W := W) (new_latch b) (new_latch b).
Proof. intros s. reflexivity. Qed.

Lemma quieter_log_error m p e :
  quieter (W := W) (log (LogError m p e)) (log (LogError m p e)).
Proof. intros s. reflexivity. Qed.

Lemma quieter_log_path p : quieter (W := W) (log (LogPath p)) (ret tt).
Proof. intros s. reflexivity. Qed.

Lemma quieter_for_range {A} n (body body' : Eff W (option A)) orelse orelse' :
  quieter body body' -> quieter orelse orelse' ->
  quieter (for_range n body orelse) (for_range n body' orelse').
Proof.
  intros Hb Ho. induction n as [|n IH]; cbn [for_range]; [exact Ho|].
  apply quieter_bind; [exact Hb|].
  intros [a|]; [apply quieter_ret|exact IH].
Qed.

End Quieter.

(** Two runs of the same code, one with [verbose] and one without:
    part by part. *)
Ltac quieter_step :=
  lazymatch goal with
  | |- quieter (bind _ _) (bind _ _) => apply quieter_bind; [|intros ?]
  | |- quieter (except_OSError _ _) (except_OSError _ _) =>
      apply quieter_except; [|intros ?]
  | |- quieter (finally _ _) (finally _ _) => apply quieter_finally
  | |- quieter (for_range _ _ _) (for_range _ _ _) => apply quieter_for_range
  | |- quieter (ret _) (ret _) => apply quieter_ret
  | |- quieter (raise _) (raise _) => apply quieter_raise
  | |- quieter (perform _ _ _) (perform _ _ _) => apply quieter_perform
  | |- quieter (get_latch _) (get_latch _) => apply quieter_get_latch
  | |- quieter (set_latch _ _) (set_latch _ _) => apply quieter_set_latch
  | |- quieter (new_latch _) (new_latch _) => apply quieter_new_latch
  | |- quieter (log (LogError _ _ _)) _ => apply quieter_log_error
  | |- quieter (log (LogPath _)) (ret tt) => apply quieter_log_path
  | |- quieter (if ?b then _ else _) _ => destruct b
  | |- quieter (match ?x with _ => _ end) _ => destruct x
  end.

Ltac quieter_go := repeat (script_unfold; cbn beta iota; quieter_step).

Section Verbose.

Context {W : Type} (os : OS W).

Lemma delete_single_with_chmod_quieter parent child force :
  quieter (delete_single_with_chmod os parent child force true)
          (delete_single_with_chmod os parent child force false).
Proof.
  unfold delete_single_with_chmod, delete_attempt, delete_single.
  quieter_go.
Qed.

Lemma open_with_chmod_quieter parent child :
  quieter (open_with_chmod os parent child) (open_with_chmod os parent child).
Proof.
  unfold open_with_chmod, open_attempt.
  quieter_go.
Qed.

Lemma scan_entries_quieter
    (loud quiet : ParentContext -> ChildContext -> bool -> bool -> bool -> Eff W bool)
    dir_name dir_fd child force :
  (forall p c f r, quieter (loud p c f r true) (quiet p c f r false)) ->
  forall entries stop success,
    quieter (scan_entries loud dir_name dir_fd child force true
                          entries stop success)
            (scan_entries quiet dir_name dir_fd child force false
                          entries stop success).
Proof.
  intros Hrec. induction entries as [|entry rest IH]; intros stop success;
    cbn [scan_entries].
  - quieter_go.
  - apply quieter_bind; [|intros ok; apply IH].
    unfold scan_entry. quieter_go. apply Hrec.
Qed.

Lemma delete_path_quieter limit :
  forall parent child force recursive,
    quieter (delete_path os limit parent child force recursive true)
            (delete_path os limit parent child force recursive false).
Proof.
  induction limit as [|depth IH]; intros; cbn [delete_path].
  - quieter_go.
  - repeat first
      [ apply delete_single_with_chmod_quieter
      | apply open_with_chmod_quieter
      | apply scan_entries_quieter; exact IH
      | script_unfold; cbn beta iota; quieter_step ].
Qed.

Lemma main_path_quieter args limit path success :
  quieter (main_path os (with_verbose true args) limit path success)
          (main_path os (with_verbose false args) limit path success).
Proof.
  unfold main_path, or_failed_to_find. cbn [with_verbose arg_force arg_recursive arg_verbose].
  repeat first
    [ apply delete_path_quieter
    | script_unfold; cbn beta iota; quieter_step ].
Qed.

(** With [verbose], [main] does what it does without, system call by
    system call and error line by error line, ends the same way and
    leaves the same state: the only difference is the lines of removed
    paths. *)
Theorem verbose_only_adds_lines args limit s :
  let loud := main os (with_verbose true args) limit s in
  main os (with_verbose false args) limit s
  = (out loud, after loud, hush (events loud)).
Proof.
  cut (quieter (main os (with_verbose true args) limit)
               (main os (with_verbose false args) limit)); [intros H; apply H|].
  unfold main. cbn [with_verbose arg_path].
  apply quieter_bind; [|intros []; quieter_go].
  assert (Hloop : forall paths success,
             quieter (main_loop os (with_verbose true args) limit paths success)
                     (main_loop os (with_verbose false args) limit paths success)).
  { induction paths as [|path rest IH]; intros success; cbn [main_loop].
    - quieter_go.
    - apply quieter_bind; [apply main_path_quieter|intros ok; apply IH]. }
  apply Hloop.
Qed.

End Verbose.

(** ** [force] only matters when something is missing *)

Lemma nothing_missing_app t1 t2 :
  nothing_missing (t1 ++ t2) = (nothing_missing t1 && nothing_missing t2)%bool.
Proof. apply forallb_app. Qed.

Section Unforced.

Context {W : Type}.

Lemma unforced_refl {A} (m : Eff W A) : same_unless_missing m m.
Proof. intros s _. reflexivity. Qed.

Lemma unforced_bind {A B} (m m' : Eff W A) (k k' : A -> Eff W B) :
  same_unless_missing m m' -> (forall a, same_unless_missing (k a) (k' a)) ->
  same_unless_missing (bind m k) (bind m' k').
Proof.
  intros Hm Hk s. specialize (Hm s). unfold bind.
  destruct (m s) as [[[a|x] s1] t1]; cbn [events snd] in *.
  - specialize (Hk a s1).
    destruct (k a s1) as [[o2 s2] t2]; cbn [events snd] in *.
    rewrite nothing_missing_app. intros H. apply andb_true_iff in H as [H1 H2].
    rewrite (Hm H1), (Hk H2). reflexivity.
  - intros H. rewrite (Hm H). reflexivity.
Qed.

Lemma unforced_except {A} (m m' : Eff W A) (h h' : errno -> Eff W A) :
  same_unless_missing m m' -> (forall e, same_unless_missing (h e) (h' e)) ->
  same_unless_missing (except_OSError m h) (except_OSError m' h').
Proof.
  intros Hm Hh s. specialize (Hm s). unfold except_OSError.
  destruct (m s) as [[[a|[e| | | |c]] s1] t1]; cbn [events snd] in *;
    try (intros H; rewrite (Hm H); reflexivity).
  specialize (Hh e s1).
  destruct (h e s1) as [[o2 s2] t2]; cbn [events snd] in *.
  rewrite nothing_missing_app. intros H. apply andb_true_iff in H as [H1 H2].
  rewrite (Hm H1), (Hh H2). reflexivity.
Qed.

(** A handler that looks at [force] only for a missing file, around a
    body that raises [FileNotFoundError] only after a system call said
    so. *)
Lemma unforced_handler {A} (m : Eff W A) (h h' : errno -> Eff W A) :
  (forall s, wp m s (fun o _ t =>
                       forall e, o = Raised (OSError e) ->
                                 is_FileNotFoundError e = true ->
                                 nothing_missing t = false)) ->
  (forall e, is_FileNotFoundError e = false -> same_unless_missing (h e) (h' e)) ->
  same_unless_missing (except_OSError m h) (except_OSError m h').
Proof.
  intros Hm Hh s. specialize (Hm s). unfold wp in Hm. unfold except_OSError.
  destruct (m s) as [[[a|[e| | | |c]] s1] t1]; cbn [out events fst snd] in *;
    try (intros _; reflexivity).
  destruct (is_FileNotFoundError e) eqn:E.
  - specialize (Hm e eq_refl E).
    destruct (h e s1) as [[o2 s2] t2]; cbn [events snd].
    rewrite nothing_missing_app, Hm. discriminate.
  - specialize (Hh e E s1).
    destruct (h e s1) as [[o2 s2] t2]; cbn [events snd] in *.
    rewrite nothing_missing_app. intros H. apply andb_true_iff in H as [H1 H2].
    rewrite (Hh H2). reflexivity.
Qed.

Lemma unforced_finally {A} (m m' : Eff W A) (c : Eff W unit) :
  same_unless_missing m m' ->
  same_unless_missing (finally m c) (finally m' c).
Proof.
  intros Hm s. specialize (Hm s). unfold finally.
  destruct (m s) as [[o s1] t1]; cbn [events snd] in *.
  destruct (c s1) as [[oc s2] t2] eqn:Ec; cbn [events snd] in *.
  rewrite nothing_missing_app. intros H. apply andb_true_iff in H as [H1 H2].
  rewrite (Hm H1), Ec. reflexivity.
Qed.

Lemma unforced_for_range {A} n (body body' : Eff W (option A)) orelse :
  same_unless_missing body body' ->
  same_unless_missing (for_range n body orelse) (for_range n body' orelse).
Proof.
  intros Hb. induction n as [|n IH]; cbn [for_range]; [apply unforced_refl|].
  apply unforced_bind; [exact Hb|].
  intros [a|]; [apply unforced_refl|exact IH].
Qed.

End Unforced.

Ltac unforced_step :=
  first
    [ apply unforced_refl
    | lazymatch goal with
      | |- same_unless_missing (bind _ _) (bind _ _) =>
          apply unforced_bind; [|intros ?]
      | |- same_unless_missing (except_OSError _ _) (except_OSError _ _) =>
          apply unforced_except; [|intros ?]
      | |- same_unless_missing (finally _ _) (finally _ _) =>
          apply unforced_finally
      | |- same_unless_missing (for_range _ _ _) (for_range _ _ _) =>
          apply unforced_for_range
      | |- same_unless_missing (if ?b then _ else _) _ => destruct b
      | |- same_unless_missing (match ?x with _ => _ end) _ => destruct x
      end ].

Section Force.

Context {W : Type} (os : OS W).

Ltac missing_solve :=
  cbn beta in *; intros;
  try discriminate;
  repeat match goal with
         | H : Raised _ = Raised _ |- _ => injection H as H; subst
         | H : OSError _ = OSError _ |- _ => injection H as H; subst
         end;
  unfold nothing_missing; rewrite ?forallb_app; cbn [forallb app];
  repeat match goal with
         | H : is_FileNotFoundError _ = _ |- _ => rewrite H
         end;
  cbn [negb andb]; rewrite ?andb_false_r; try reflexivity; try congruence.

Lemma delete_single_with_chmod_unforced parent child f1 f2 verbose :
  same_unless_missing (delete_single_with_chmod os parent child f1 verbose)
                      (delete_single_with_chmod os parent child f2 verbose).
Proof.
  unfold delete_single_with_chmod, delete_attempt.
  apply unforced_for_range. apply unforced_handler.
  - intros s. unfold delete_single. wp_go; missing_solve.
  - intros e E. rewrite E. apply unforced_refl.
Qed.

Lemma open_with_chmod_missing parent child s :
  wp (dir_fd <- open_with_chmod os parent child;; ret (inl bool dir_fd)) s
     (fun o _ t =>
        forall e, o = Raised (OSError e) ->
                  is_FileNotFoundError e = true ->
                  nothing_missing t = false).
Proof.
  unfold open_with_chmod, open_attempt.
  wp_go; missing_solve.
Qed.

Lemma scan_entries_unforced
    (one other : ParentContext -> ChildContext -> bool -> bool -> bool -> Eff W bool)
    dir_name dir_fd child f1 f2 verbose :
  (forall p c r v, same_unless_missing (one p c f1 r v) (other p c f2 r v)) ->
  forall entries stop success,
    same_unless_missing
      (scan_entries one dir_name dir_fd child f1 verbose entries stop success)
      (scan_entries other dir_name dir_fd child f2 verbose entries stop success).
Proof.
  intros Hrec. induction entries as [|entry rest IH]; intros stop success;
    cbn [scan_entries].
  - apply unforced_refl.
  - apply unforced_bind; [|intros ok; apply IH].
    unfold scan_entry.
    repeat first [ apply Hrec | unforced_step ].
Qed.

Lemma delete_path_unforced f1 f2 limit :
  forall parent child recursive verbose,
    same_unless_missing (delete_path os limit parent child f1 recursive verbose)
                        (delete_path os limit parent child f2 recursive verbose).
Proof.
  induction limit as [|depth IH]; intros; cbn [delete_path].
  - apply unforced_refl.
  - repeat first
      [ apply delete_single_with_chmod_unforced
      | apply scan_entries_unforced; exact IH
      | apply unforced_handler;
        [ intros s; apply open_with_chmod_missing
        | intros e E; rewrite E; apply unforced_refl ]
      | unforced_step ].
Qed.

Lemma or_failed_to_find_unforced {A} f1 f2 args success path
    (m : Eff W (bool + A)) :
  (forall s, wp m s (fun o _ t =>
                       forall e, o = Raised (OSError e) ->
                                 is_FileNotFoundError e = true ->
                                 nothing_missing t = false)) ->
  same_unless_missing (or_failed_to_find (with_force f1 args) success path m)
                      (or_failed_to_find (with_force f2 args) success path m).
Proof.
  intros Hm. unfold or_failed_to_find.
  apply unforced_except; [|intros e; apply unforced_refl].
  apply unforced_handler; [exact Hm|].
  intros e E. rewrite E. apply unforced_refl.
Qed.

Lemma main_path_unforced f1 f2 args limit path success :
  same_unless_missing (main_path os (with_force f1 args) limit path success)
                      (main_path os (with_force f2 args) limit path success).
Proof.
  unfold main_path.
  apply unforced_bind.
  { apply or_failed_to_find_unforced. intros s. wp_go; missing_solve. }
  intros [success'|resolved]; [apply unforced_refl|].
  apply unforced_bind.
  { apply or_failed_to_find_unforced. intros s. wp_go; missing_solve. }
  intros [success'|[[parent_name child_name] parent_fd]]; [apply unforced_refl|].
  cbn [with_force arg_force arg_recursive arg_verbose].
  repeat first [ apply delete_path_unforced | unforced_step ].
Qed.

(** [force] is looked at only when a system call fails for a missing
    file: a run of [main] along which none does is the same run
    whatever [force] is, system call by system call, line by line, with
    the same end. *)
Theorem force_only_matters_when_missing f1 f2 args limit s :
  nothing_missing (events (main os (with_force f1 args) limit s)) = true ->
  main os (with_force f2 args) limit s = main os (with_force f1 args) limit s.
Proof.
  cut (same_unless_missing (main os (with_force f1 args) limit)
                           (main os (with_force f2 args) limit));
    [intros H; apply H|].
  unfold main. cbn [with_force arg_path].
  apply unforced_bind; [|intros []; apply unforced_refl].
  assert (Hloop : forall paths success,
             same_unless_missing
               (main_loop os (with_force f1 args) limit paths success)
               (main_loop os (with_force f2 args) limit paths success)).
  { induction paths as [|path rest IH]; intros success; cbn [main_loop].
    - apply unforced_refl.
    - apply unforced_bind; [apply main_path_unforced|intros ok; apply IH]. }
  apply Hloop.
Qed.

End Force.

(** ** Runs on the sample filesystems *)

Section SampleRuns.

Import Fs Samples MoreSamples.

Lemma nonrecursive_failure_witness :
  exists s1 t1,
    cc_is_dir (top_dir "d") = true
    /\ delete_single_with_chmod os root_handle (top_dir "d") false false
                                (root_open sample)
       = (Raised (OSError ENOTEMPTY), s1, t1)
    /\ (delete_path os 1 root_handle (top_dir "d") false false false
                    (root_open sample)
        = (Returned false, s1,
           t1 ++ [Log (LogError "Failed to delete" "/d" ENOTEMPTY)])
        /\ forallb (rmdir_or_repair "d" 3) t1 = true)
    /\ inodes (world s1) = inodes sample.
Proof.
  eexists _, _.
  split; [reflexivity|].
  split; [lazy; reflexivity|].
  split; [|reflexivity].
  apply (nonrecursive_failure_touches_nothing_inside
           os 0 root_handle (top_dir "d") false false (root_open sample));
    reflexivity.
Defined.

Lemma empty_directory_witness :
  exists st t,
    main_path os (flags false false false ["/e"]%string) 1 "/e" true
              (start sample)
    = (Returned true, st, t)
    /\ find (world st) "/e" = None
    /\ t = [Sys (Realpath "/e") (GotPath "/e"); Sys (Open "/" None) (GotFd 3);
            Sys (Lstat "e" 3) (GotMode 16877); Sys (Rmdir "e" 3) Done;
            Sys (Close 3) Done].
Proof.
  eexists _, _.
  split.
  - eapply (empty_directory_needs_no_recursive
              os (flags false false false ["/e"]%string) 0 "/e" true
              (start sample)).
    + lazy; reflexivity.
    + lazy; reflexivity.
    + lazy; reflexivity.
    + lazy; reflexivity.
    + lazy; reflexivity.
    + lazy; reflexivity.
    + lazy; reflexivity.
  - split; reflexivity.
Defined.

Lemma unresolved_path_witness :
  exists w1,
    arg_force (flags false false false ["/d/f/x"; "/e"]%string) = false
    /\ sys_realpath os "/d/f/x" (world (start sample)) = (inl ENOTDIR, w1)
    /\ (let r := main_loop os (flags false false false ["/d/f/x"; "/e"]%string) 1
                           ["/e"]%string false (mkState w1 []) in
        main_loop os (flags false false false ["/d/f/x"; "/e"]%string) 1
                  ["/d/f/x"; "/e"]%string true (start sample)
        = (out r, after r,
           [Sys (Realpath "/d/f/x") (Failed ENOTDIR);
            Log (LogError "Failed to find" "/d/f/x/" ENOTDIR)] ++ events r)
        /\ out r <> Returned true)
    /\ find (world (after (main_loop os
                             (flags false false false ["/d/f/x"; "/e"]%string) 1
                             ["/d/f/x"; "/e"]%string true (start sample))))
             "/e" = None.
Proof.
  eexists.
  split; [reflexivity|].
  split; [lazy; reflexivity|].
  split; [|reflexivity].
  apply (unresolved_path_fails_and_batch_goes_on
           os (flags false false false ["/d/f/x"; "/e"]%string) 1 "/d/f/x"
           ["/e"]%string true (start sample));
    reflexivity.
Defined.

(** [/d/f] is a file, so [/d/f/x] does not exist; without [force],
    [main] fails for it, but the error it reports is not the one of a
    missing file: [realpath] raises [NotADirectoryError]. *)
Lemma path_under_a_file_is_not_reported_as_missing :
  find sample "/d/f/x" = None
  /\ events (main os (flags false false false ["/d/f/x"]%string) 1 (start sample))
     = [Sys (Realpath "/d/f/x") (Failed ENOTDIR);
        Log (LogError "Failed to find" "/d/f/x/" ENOTDIR)]
  /\ ~ (exists e msg p,
          is_FileNotFoundError e = true
          /\ In (Log (LogError msg p e))
                (events (main os (flags false false false ["/d/f/x"]%string) 1
                              (start sample)))).
Proof.
  split; [reflexivity|]. split; [reflexivity|].
  intros [e [msg [p [He Hin]]]].
  change (In (Log (LogError msg p e))
             [Sys (Realpath "/d/f/x") (Failed ENOTDIR);
              Log (LogError "Failed to find" "/d/f/x/" ENOTDIR)]) in Hin.
  destruct Hin as [H|[H|[]]]; [discriminate H|].
  injection H as _ _ <-. discriminate He.
Qed.

(** The empty path does not exist either, and [realpath] resolves it to
    the working directory: [main] reports nothing as not found and goes
    on to remove the working directory, here the root. *)
Lemma empty_path_is_the_working_directory :
  find sample "" = None
  /\ events (main os (flags false false false [""]%string) 1 (start sample))
     = [Sys (Realpath "") (GotPath "/");
        Sys (Open "/" None) (GotFd 3);
        Sys (Lstat "." 3) (GotMode 16877);
        Sys (Rmdir "." 3) (Failed EINVAL);
        Log (LogError "Failed to delete" "/." EINVAL);
        Sys (Close 3) Done].
Proof. split; reflexivity. Qed.

Lemma children_then_directory_witness :
  exists b st t,
    delete_path os 2 root_handle (top_dir "t") false true false
                (root_open tangled)
    = (Returned b, st, t)
    /\ b = false
    /\ find (world st) "/t/f" = None
    /\ find (world st) "/t" <> None.
Proof.
  eexists _, _, _.
  split.
  - eapply (children_then_directory
              os 1 root_handle (root_open tangled)
              (child := top_dir "t") (force := false) (verbose := false)).
    + reflexivity.
    + lazy; reflexivity.
    + lazy; reflexivity.
    + lazy; reflexivity.
    + eapply siblings_cons; [lazy; reflexivity|].
      eapply siblings_cons; [lazy; reflexivity|].
      apply siblings_nil.
    + lazy; reflexivity.
    + lazy; reflexivity.
  - split; [reflexivity|]. split; [reflexivity|]. discriminate.
Defined.


(** What is left of [sample] after [main -r /l]: the link itself stays,
    its target [/d] is gone, and [/e], which [/d/k] pointed to, stays. *)
Lemma link_run_on_sample :
  let st := after (main os (flags false true false ["/l"]%string) 3 (start sample)) in
  out (main os (flags false true false ["/l"]%string) 3 (start sample)) = Returned tt
  /\ lookup_name "l" (match lookup_ino root (inodes (world st)) with
                       | Some (IDir _ es) => es
                       | _ => []
                       end) = Some 4
  /\ find (world st) "/d" = None
  /\ find (world st) "/e" = Some (IDir 493 []).
Proof. vm_compute. repeat split. Qed.

(** C4: with [force] set, when the path resolves and its parent opens
    but the leaf is gone by the time it is classified, [lstat] raises
    [FileNotFoundError]; [main] logs "Failed to stat", clears [success]
    and exits with status 1, where a missing path met by [realpath], by
    a deletion or by a directory open is passed over. *)
Theorem forced_run_fails_when_leaf_vanishes_before_lstat :
  out (main os (flags true true false ["/e"]%string) 3 (start racing))
  = Raised (SystemExit 1)
  /\ events (main os (flags true true false ["/e"]%string) 3 (start racing))
     = [Sys (Realpath "/e") (GotPath "/e");
        Sys (Open "/" None) (GotFd 3);
        Sys (Lstat "e" 3) (Failed ENOENT);
        Log (LogError "Failed to stat" "/e" ENOENT);
        Sys (Close 3) Done].
Proof. vm_compute. split; reflexivity. Qed.

Lemma every_failure_is_logged_witness :
  out (delete_path os 1 root_handle (top_dir "d") false false false
                   (root_open sample)) = Returned false
  /\ has_error (events (delete_path os 1 root_handle (top_dir "d") false false
                                    false (root_open sample))) = true.
Proof.
  split; [reflexivity|].
  apply (proj1 (every_failure_is_logged os)). reflexivity.
Defined.

Lemma latch_set_means_one_attempt_witness :
  nth (pc_attempted_chmod ro_handle) (latches (ro_open true false)) false = true
  /\ exists a,
       filter is_syscall
              (events (delete_single_with_chmod os ro_handle file_x false false
                                                (ro_open true false)))
       = [Sys (Unlink "x" 4) a]
       /\ latches (after (delete_single_with_chmod os ro_handle file_x false
                                                   false (ro_open true false)))
          = [true; false].
Proof.
  split; [reflexivity|].
  apply (latch_set_means_one_attempt os ro_handle file_x false false
                                     (ro_open true false)).
  reflexivity.
Defined.

Lemma child_latch_set_means_one_open_witness :
  nth (cc_attempted_chmod dir_z) (latches (t_open false true)) false = true
  /\ exists a,
       events (open_with_chmod os t_handle dir_z (t_open false true))
       = [Sys (Open "z" (Some 4%Z)) a]
       /\ latches (after (open_with_chmod os t_handle dir_z (t_open false true)))
          = [false; true].
Proof.
  split; [reflexivity|].
  apply (child_latch_set_means_one_open os t_handle dir_z (t_open false true)).
  reflexivity.
Defined.

Lemma forced_missing_path_witness :
  exists w1,
    arg_force (flags true false false []) = true
    /\ sys_realpath os "/nope" (world (start sample)) = (inl ENOENT, w1)
    /\ main_path os (flags true false false []) 1 "/nope" true (start sample)
       = (Returned true, mkState w1 [],
          [Sys (Realpath "/nope") (Failed ENOENT)])
    /\ inodes w1 = inodes sample.
Proof.
  eexists.
  split; [reflexivity|].
  split; [lazy; reflexivity|].
  split; [|reflexivity].
  apply (forced_missing_path_is_skipped os (flags true false false []) 1
                                        "/nope" true (start sample));
    reflexivity.
Defined.

Lemma fs_realpath_shape p w :
  fs_realpath p w = match walk (inodes (tick w)) p with
                    | inl e => (inl e, tick w)
                    | inr st => (inr (render st), tick w)
                    end.
Proof. reflexivity. Qed.

Lemma fs_realpath_rendered p w rp w' :
  fs_realpath p w = (inr rp, w') -> starts_with_sep rp = true.
Proof.
  rewrite fs_realpath_shape.
  destruct (walk (inodes (tick w)) p) as [e|st]; [discriminate|].
  intros H. injection H as <- _. reflexivity.
Qed.

Lemma sys_realpath_os p w : sys_realpath os p w = fs_realpath p w.
Proof. reflexivity. Qed.

Lemma fs_realpath_absolute : absolute_realpath os.
Proof.
  intros p w rp w' H. rewrite sys_realpath_os in H.
  exact (fs_realpath_rendered _ _ H).
Qed.

Lemma every_path_is_tried_witness :
  out (main os (flags false false false ["/nope"; "/e"]%string) 1 (start sample))
  = Raised (SystemExit 1)
  /\ resolved_paths
       (events (main os (flags false false false ["/nope"; "/e"]%string) 1
                     (start sample)))
     = ["/nope"; "/e"]%string.
Proof.
  split.
  - lazy; reflexivity.
  - apply (every_path_is_tried os (flags false false false ["/nope"; "/e"]%string)
                               1 (start sample)).
    right. lazy; reflexivity.
Defined.

Lemma parent_name_assertion_witness :
  absolute_realpath os
  /\ out (main os (flags false true false ["/d"; "/"]%string) 3 (start sample))
     <> Raised AssertionError.
Proof.
  split.
  - exact fs_realpath_absolute.
  - apply (@parent_name_assertion_never_fails
             _ os (flags false true false ["/d"; "/"]%string) 3 (start sample)).
    exact fs_realpath_absolute.
Defined.

Import RepairSamples.

Lemma parent_repaired_witness :
  never_opens (pc_fd ro_handle)
    (events (delete_path os 1 ro_handle file_x false false false
                         (ro_open false false))) = true
  /\ count (is_fstat 4)
       (events (delete_path os 1 ro_handle file_x false false false
                            (ro_open false false))) <= 1
  /\ count (is_fchmod 4)
       (events (delete_path os 1 ro_handle file_x false false false
                            (ro_open false false))) <= 1
  /\ (latch 0 (ro_open false false) = true ->
      count (is_fstat 4)
        (events (delete_path os 1 ro_handle file_x false false false
                             (ro_open false false))) = 0
      /\ count (is_fchmod 4)
           (events (delete_path os 1 ro_handle file_x false false false
                                (ro_open false false))) = 0).
Proof.
  split.
  - lazy; reflexivity.
  - apply (parent_repaired_at_most_once os 1 ro_handle file_x false false false
                                        (ro_open false false)).
    lazy; reflexivity.
Defined.

Lemma one_repair_for_all_children_witness :
  let r := scan_entries (delete_path os 1) "/ro" 4 dir_ro false false
                        both_files None true crowded_open in
  never_opens 4 (events r) = true
  /\ count (is_fstat 4) (events r) <= 1
  /\ count (is_fchmod 4) (events r) <= 1
  /\ (latch 1 crowded_open = true ->
      count (is_fstat 4) (events r) = 0 /\ count (is_fchmod 4) (events r) = 0)
  /\ (forall ok, out r = Returned ok ->
      0 < count (is_fstat 4) (events r) ->
      latch 1 (after r) = true).
Proof.
  split.
  - lazy; reflexivity.
  - apply (one_repair_for_all_children os 1 "/ro" 4 dir_ro false false
                                       both_files None true crowded_open).
    lazy; reflexivity.
Defined.

Lemma flags_and_repair_witness :
  let r := scan_entries (delete_path os 1) "/ro" 4 dir_ro false false
                        both_files None true crowded_open in
  never_opens 4 (events r) = true
  /\ latches_grow (latches crowded_open) (latches (after r))
  /\ count (is_fstat 4) (events r) <= 1
  /\ count (is_fchmod 4) (events r) <= 1
  /\ (latch 1 crowded_open = true ->
      count (is_fstat 4) (events r) = 0 /\ count (is_fchmod 4) (events r) = 0).
Proof.
  split.
  - lazy; reflexivity.
  - apply (proj2 (proj2 (flags_only_set_and_one_repair_per_handle os))
             1 "/ro"%string 4%Z dir_ro false false both_files None true crowded_open).
    lazy; reflexivity.
Defined.

Lemma success_without_force_witness :
  out (delete_path os 1 ro_handle file_x false false false (ro_open false false))
  = Returned true
  /\ In (Sys (Unlink "x" 4) Done)
        (events (delete_path os 1 ro_handle file_x false false false
                             (ro_open false false))).
Proof.
  split.
  - lazy; reflexivity.
  - apply (success_without_force_is_a_removal os 1 ro_handle file_x false false
                                              (ro_open false false)).
    lazy; reflexivity.
Defined.

Lemma status_zero_witness :
  arg_force (flags false true false ["/ro"; "/e"]%string) = false
  /\ out (main os (flags false true false ["/ro"; "/e"]%string) 3 (start sample))
     = Returned tt
  /\ 2 <= count is_removal
            (events (main os (flags false true false ["/ro"; "/e"]%string) 3
                          (start sample))).
Proof.
  split; [reflexivity|]. split.
  - lazy; reflexivity.
  - apply (status_zero_means_every_path_removed
             os (flags false true false ["/ro"; "/e"]%string) 3 (start sample)).
    + reflexivity.
    + lazy; reflexivity.
Defined.

Lemma force_only_matters_witness :
  nothing_missing
    (events (main os (with_force false (flags false true false ["/ro"; "/e"]%string))
                  3 (start sample))) = true
  /\ main os (with_force true (flags false true false ["/ro"; "/e"]%string))
          3 (start sample)
     = main os (with_force false (flags false true false ["/ro"; "/e"]%string))
            3 (start sample).
Proof.
  split.
  - lazy; reflexivity.
  - apply (force_only_matters_when_missing
             os false true (flags false true false ["/ro"; "/e"]%string) 3
             (start sample)).
    lazy; reflexivity.
Defined.

End SampleRuns.
